(** * Forward-mode automatic differentiation: diff.h and expr.h

    A shallow embedding of the two headers of the repository:
    - [diff.h], the eager dual number [AD<N>] with its member operators
      and the twelve free binary operators, and
    - [expr.h], the expression templates ([ConstExpr], [ValExpr],
      [AddExpr], ..., [PowExpr]) that evaluate lazily and are
      materialised by [ValExpr::assign].

    The scalar type of the code is [double].  The embedding is written
    once over an interface of scalar operations ([Arith]) and of the C
    library functions the code calls ([std.Libm]); it is instantiated
    with IEEE binary64 (Rocq's primitive floats, the arithmetic the
    code runs on) and with the real numbers (the arithmetic the
    differentiation rules are stated in). *)

From Stdlib Require Import Floats.PrimFloat Floats.FloatOps Floats.SpecFloat
  Floats.FloatAxioms ZArith Reals.Reals Field Lra.
From stdpp Require Import base functions list strings.

(** ** Outcomes of a C++ call *)

(** A call returns normally, leaves by an exception, or has no defined
    behaviour (an array subscript outside the array, or control
    reaching the end of a value-returning function). *)
Inductive outcome (A : Type) : Type :=
| Returns (a : A)
| Throws (what : string)
| Undefined.
Arguments Returns {A} a.
Arguments Throws {A} what.
Arguments Undefined {A}.

#[global] Instance outcome_bind : MBind outcome := λ A B f m,
  match m with
  | Returns a => f a
  | Throws w => Throws w
  | Undefined => Undefined
  end.

#[global] Instance outcome_ret : MRet outcome := λ A a, Returns a.

(** The call reported an error to its caller. *)
Definition reports_error {A} (o : outcome A) : Prop := ∃ w, o = Throws w.

(** [for (unsigned i = i0; i < i0 + n; ++i) body], the loop state
    threaded through the iterations. *)
Fixpoint for_loop {St : Type} (body : nat → St → outcome St) (i n : nat) (s : St)
  : outcome St :=
  match n with
  | O => Returns s
  | S n' => s' ← body i s; for_loop body (S i) n' s'
  end.

(** ** Scalars *)

(** The operations on [double] the two headers use: the literals [0.]
    and [1.], the four binary operators and unary minus. *)
Class Arith (F : Type) := {
  zero : F;
  one : F;
  add : F → F → F;
  sub : F → F → F;
  mul : F → F → F;
  div : F → F → F;
  opp : F → F
}.

Declare Scope scalar_scope.
Delimit Scope scalar_scope with dbl.
Infix "+" := add : scalar_scope.
Infix "-" := sub : scalar_scope.
Infix "*" := mul : scalar_scope.
Infix "/" := div : scalar_scope.
Notation "- x" := (opp x) : scalar_scope.

(** The functions of [<cmath>] that expr.h calls. *)
Module std.
Class Libm (F : Type) := {
  exp : F → F;
  log : F → F;
  pow : F → F → F
}.
End std.

(** ** diff.h: the eager dual number *)

Module diff_h.
Section AD.
Context {F : Type} `{Arith F}.
(** The template parameter [N].  It and the subscripts ([unsigned int]
    in the code) are natural numbers; a loop counter stays below [N]. *)
Variable N : nat.

(** [double x_; double dx_[N];] *)
Record AD := mkAD { x_ : F; dx_ : list F }.

(** The class invariant of the model: the array has its [N] slots. *)
Definition wf (a : AD) : Prop := length (dx_ a) = N.

Definition set_x (a : AD) (x : F) : AD := mkAD x (dx_ a).

(** Reading [dx_[i]]: no check is made by the code, a subscript
    outside the array is undefined. *)
Definition subscript (a : AD) (i : nat) : outcome F :=
  match dx_ a !! i with
  | Some v => Returns v
  | None => Undefined
  end.

(** Writing [dx_[i] = v], likewise unchecked. *)
Definition subscript_set (a : AD) (i : nat) (v : F) : outcome AD :=
  if decide (i < length (dx_ a))
  then Returns (mkAD (x_ a) (<[i:=v]> (dx_ a)))
  else Undefined.

(** The total reading used in statements: slot [i], and [0.] outside. *)
Definition der (a : AD) (i : nat) : F := default zero (dx_ a !! i).

(** The loop invariant of the loops below: started on [a], the loop
    has stored [g 0 .. g (k-1)] in the slots below [k] and touched
    nothing else. *)
Definition filled (g : nat → F) (a : AD) (k : nat) (s : AD) : Prop :=
  x_ s = x_ a ∧ dx_ s = (g <$> seq 0 k) ++ drop k (dx_ a).

(** [size()] *)
Definition size (a : AD) : nat := N.

(** [val()] *)
Definition val (a : AD) : F := x_ a.

(** [dx(i)] read, and [dx(i) = v] through the mutable reference. *)
Definition dx (a : AD) (i : nat) : outcome F := subscript a i.
Definition dx_set (a : AD) (i : nat) (v : F) : outcome AD := subscript_set a i v.

(** [zero()]: [for (int i=0; i < N; ++i) dx_[i] = 0.;] *)
Definition zero_ (a : AD) : outcome AD :=
  for_loop (λ i a, subscript_set a i zero) 0 N a.

(** The argument [AD<N> const& other] of a member is a reference: to
    the receiver itself ([a += a]) or to another object. *)
Inductive operand := itself | object (b : AD).

Definition deref (a : AD) (o : operand) : AD :=
  match o with itself => a | object b => b end.

(** [copy(other)]: [x_ = other.x_;] then
    [for (int i=0; i < N; ++i) dx_[i] = other.dx_[i];] *)
Definition copy (a : AD) (other : operand) : outcome AD :=
  for_loop (λ i a, v ← subscript (deref a other) i; subscript_set a i v) 0 N
           (set_x a (x_ (deref a other))).

(** The storage of an object before its constructor body runs: [N]
    slots of indeterminate content.  No slot is read before [zero()]
    or [copy()] has overwritten it; the model fills them with [1.]. *)
Definition storage : AD := mkAD one (replicate N one).

(** [AD():x_(0.) {zero();}] *)
Definition AD_default : outcome AD := zero_ (set_x storage zero).

(** [AD(double x):x_(x) {zero();}] *)
Definition AD_double (x : F) : outcome AD := zero_ (set_x storage x).

(** [AD(AD<N> const& other) {copy(other);}] *)
Definition AD_copy (other : AD) : outcome AD := copy storage (object other).

(** [diff(i)]: [zero(); dx_[i] = 1.;] *)
Definition diff (a : AD) (i : nat) : outcome AD :=
  a ← zero_ a; subscript_set a i one.

(** *** Member operators *)

(** A member operator at the end of its body: the receiver as the
    statements of the body have left it, and what the call expression
    evaluates to.  [returned] is [Undefined] when control reaches the
    closing brace of the operator, which is declared to return
    [AD<N>&], without a [return] statement. *)
Record call := mkCall { receiver : AD; returned : outcome AD }.

(** [return *this;] *)
Definition return_this (a : AD) : outcome call :=
  Returns (mkCall a (Returns a)).

(** The closing brace reached with no [return].  From there on the
    program has no defined behaviour, the receiver included:
    [receiver] only records what the statements of the body wrote
    before. *)
Definition no_return (a : AD) : outcome call :=
  Returns (mkCall a Undefined).

(** The call as its caller has it: the object returned, or no defined
    behaviour at all once control has left the body without a
    [return]. *)
Definition whole_call (c : outcome call) : outcome AD :=
  c ← c; returned c.

(** [operator=(double other)] *)
Definition assign_double (a : AD) (other : F) : outcome call :=
  a ← zero_ (set_x a other); return_this a.

(** [operator=(AD<N> const& other)] *)
Definition assign_AD (a : AD) (other : operand) : outcome call :=
  a ← copy a other; return_this a.

(** [operator+=(double other)] *)
Definition add_assign_double (a : AD) (other : F) : outcome call :=
  return_this (set_x a (x_ a + other)%dbl).

(** [operator+=(AD<N> const& other)] *)
Definition add_assign_AD (a : AD) (other : operand) : outcome call :=
  a ← for_loop (λ i a, l ← subscript a i;
                       r ← subscript (deref a other) i;
                       subscript_set a i (l + r)%dbl)
               0 N (set_x a (x_ a + x_ (deref a other))%dbl);
  return_this a.

(** [operator-=(double other)] *)
Definition sub_assign_double (a : AD) (other : F) : outcome call :=
  return_this (set_x a (x_ a - other)%dbl).

(** [operator-=(AD<N> const& other)] *)
Definition sub_assign_AD (a : AD) (other : operand) : outcome call :=
  a ← for_loop (λ i a, l ← subscript a i;
                       r ← subscript (deref a other) i;
                       subscript_set a i (l - r)%dbl)
               0 N (set_x a (x_ a - x_ (deref a other))%dbl);
  return_this a.

(** [operator*=(double other)] *)
Definition mul_assign_double (a : AD) (other : F) : outcome call :=
  a ← for_loop (λ i a, l ← subscript a i; subscript_set a i (l * other)%dbl)
               0 N (set_x a (x_ a * other)%dbl);
  return_this a.

(** [operator*=(AD<N> const& other)]:
    [x_ *= other.x_;] comes first, so the loop body
    [dx_[i] = dx_[i]*other.x_ + x_*other.dx_[i];] reads the updated
    [x_]; there is no [return]. *)
Definition mul_assign_AD (a : AD) (other : operand) : outcome call :=
  a ← for_loop (λ i a, l ← subscript a i;
                       r ← subscript (deref a other) i;
                       subscript_set a i
                         (l * x_ (deref a other) + x_ a * r)%dbl)
               0 N (set_x a (x_ a * x_ (deref a other))%dbl);
  no_return a.

(** [operator/=(double other)] *)
Definition div_assign_double (a : AD) (other : F) : outcome call :=
  a ← for_loop (λ i a, l ← subscript a i; subscript_set a i (l / other)%dbl)
               0 N (set_x a (x_ a / other)%dbl);
  return_this a.

(** [operator/=(AD<N> const& other)]:
    [x_ /= other.x_;] comes first, the loop body
    [dx_[i] = (dx_[i]*other.x_ - x_*other.dx_[i]) / (other.x_*other.x_);]
    reads the updated [x_]; there is no [return]. *)
Definition div_assign_AD (a : AD) (other : operand) : outcome call :=
  a ← for_loop (λ i a, l ← subscript a i;
                       r ← subscript (deref a other) i;
                       subscript_set a i
                         ((l * x_ (deref a other) - x_ a * r)
                          / (x_ (deref a other) * x_ (deref a other)))%dbl)
               0 N (set_x a (x_ a / x_ (deref a other))%dbl);
  no_return a.

(** *** The free binary operators

    Each one default-constructs [tmp], fills [tmp.dx(i)] in a loop
    over [i < N], sets [tmp.val()] and returns [tmp]. *)

(** [operator+(double L, AD<N> const& R)] *)
Definition add_double_AD (L : F) (R : AD) : outcome AD :=
  tmp ← AD_default;
  tmp ← for_loop (λ i tmp, r ← dx R i; dx_set tmp i r) 0 N tmp;
  Returns (set_x tmp (L + val R)%dbl).

(** [operator+(AD<N> const& L, double R)] *)
Definition add_AD_double (L : AD) (R : F) : outcome AD :=
  tmp ← AD_default;
  tmp ← for_loop (λ i tmp, l ← dx L i; dx_set tmp i l) 0 N tmp;
  Returns (set_x tmp (val L + R)%dbl).

(** [operator+(AD<N> const& L, AD<N> const& R)] *)
Definition add_AD_AD (L R : AD) : outcome AD :=
  tmp ← AD_default;
  tmp ← for_loop (λ i tmp, l ← dx L i; r ← dx R i; dx_set tmp i (l + r)%dbl)
                 0 N tmp;
  Returns (set_x tmp (val L + val R)%dbl).

(** [operator-(double L, AD<N> const& R)] *)
Definition sub_double_AD (L : F) (R : AD) : outcome AD :=
  tmp ← AD_default;
  tmp ← for_loop (λ i tmp, r ← dx R i; dx_set tmp i (- r)%dbl) 0 N tmp;
  Returns (set_x tmp (L - val R)%dbl).

(** [operator-(AD<N> const& L, double R)] *)
Definition sub_AD_double (L : AD) (R : F) : outcome AD :=
  tmp ← AD_default;
  tmp ← for_loop (λ i tmp, l ← dx L i; dx_set tmp i l) 0 N tmp;
  Returns (set_x tmp (val L - R)%dbl).

(** [operator-(AD<N> const& L, AD<N> const& R)] *)
Definition sub_AD_AD (L R : AD) : outcome AD :=
  tmp ← AD_default;
  tmp ← for_loop (λ i tmp, l ← dx L i; r ← dx R i; dx_set tmp i (l - r)%dbl)
                 0 N tmp;
  Returns (set_x tmp (val L - val R)%dbl).

(** [operator*(double L, AD<N> const& R)] *)
Definition mul_double_AD (L : F) (R : AD) : outcome AD :=
  tmp ← AD_default;
  tmp ← for_loop (λ i tmp, r ← dx R i; dx_set tmp i (L * r)%dbl) 0 N tmp;
  Returns (set_x tmp (L * val R)%dbl).

(** [operator*(AD<N> const& L, double R)] *)
Definition mul_AD_double (L : AD) (R : F) : outcome AD :=
  tmp ← AD_default;
  tmp ← for_loop (λ i tmp, l ← dx L i; dx_set tmp i (l * R)%dbl) 0 N tmp;
  Returns (set_x tmp (val L * R)%dbl).

(** [operator*(AD<N> const& L, AD<N> const& R)]:
    [tmp.dx(i) = L.dx(i) * R.val() + L.val() * R.dx(i);] *)
Definition mul_AD_AD (L R : AD) : outcome AD :=
  tmp ← AD_default;
  tmp ← for_loop (λ i tmp, l ← dx L i; r ← dx R i;
                           dx_set tmp i (l * val R + val L * r)%dbl)
                 0 N tmp;
  Returns (set_x tmp (val L * val R)%dbl).

(** [operator/(double L, AD<N> const& R)]:
    [tmp.dx(i) = ( -L*R.dx(i) ) / (R.val()*R.val());] *)
Definition div_double_AD (L : F) (R : AD) : outcome AD :=
  tmp ← AD_default;
  tmp ← for_loop (λ i tmp, r ← dx R i;
                           dx_set tmp i ((- L * r) / (val R * val R))%dbl)
                 0 N tmp;
  Returns (set_x tmp (L / val R)%dbl).

(** [operator/(AD<N> const& L, double R)] *)
Definition div_AD_double (L : AD) (R : F) : outcome AD :=
  tmp ← AD_default;
  tmp ← for_loop (λ i tmp, l ← dx L i; dx_set tmp i (l / R)%dbl) 0 N tmp;
  Returns (set_x tmp (val L / R)%dbl).

(** [operator/(AD<N> const& L, AD<N> const& R)]:
    [tmp.dx(i) = (L.dx(i) * R.val() - L.val() * R.dx(i) ) / (R.val() * R.val());] *)
Definition div_AD_AD (L R : AD) : outcome AD :=
  tmp ← AD_default;
  tmp ← for_loop (λ i tmp, l ← dx L i; r ← dx R i;
                           dx_set tmp i
                             ((l * val R - val L * r) / (val R * val R))%dbl)
                 0 N tmp;
  Returns (set_x tmp (val L / val R)%dbl).
End AD.

Arguments AD F : clear implicits.
Arguments call F : clear implicits.
Arguments operand F : clear implicits.
End diff_h.
Import diff_h.

(** ** expr.h: expression templates *)

(** A named [ValExpr<AD<N>>] variable of the program. *)
Definition var := string.

Module expr_h.
(** The variables in scope: each [ValExpr<T>] variable holds its
    [T v_] by value ("not a reference, store the AD value"). *)
Abbreviation store F := (var → AD F) (only parsing).

Section Expr.
Context {F : Type} `{Arith F} `{std.Libm F}.
Variable N : nat.

(** Modelled from the spec: [enum { degree = T::degree }] reads a
    member [degree] that [AD<N>] of diff.h does not declare; the spec
    fixes the length of the derivative vector of a dual-bearing type
    as its dimension [N]. *)
Definition degree : nat := N.

(** An expression object.  The operand members of the node classes
    are references ([L const& l_; R const& r_;]): a [ValExpr] leaf is
    named by the variable it refers to and read from the store each
    time the node is evaluated; [ConstExpr] holds its [double] by
    value. *)
Inductive Expr :=
| ConstExpr (v : F)
| ValExpr (x : var)
| AddExpr (l r : Expr)
| SubExpr (l r : Expr)
| MulExpr (l r : Expr)
| DivExpr (l r : Expr)
| ExpExpr (v : Expr)
| LogExpr (v : Expr)
| PowExpr (l r : Expr).

(** The [val()] members. *)
Fixpoint val (σ : store F) (e : Expr) : F :=
  match e with
  | ConstExpr v => v
  | ValExpr x => diff_h.val (σ x)
  | AddExpr l r => (val σ l + val σ r)%dbl
  | SubExpr l r => (val σ l - val σ r)%dbl
  | MulExpr l r => (val σ l * val σ r)%dbl
  | DivExpr l r => (val σ l / val σ r)%dbl
  | ExpExpr v => std.exp (val σ v)
  | LogExpr v => std.log (val σ v)
  | PowExpr l r => std.pow (val σ l) (val σ r)
  end.

(** The [dx(i)] members. *)
Fixpoint dx (σ : store F) (e : Expr) (i : nat) : outcome F :=
  match e with
  | ConstExpr _ => Returns zero
  | ValExpr x => diff_h.dx (σ x) i
  | AddExpr l r =>
      dl ← dx σ l i; dr ← dx σ r i; Returns (dl + dr)%dbl
  | SubExpr l r =>
      dl ← dx σ l i; dr ← dx σ r i; Returns (dl - dr)%dbl
  | MulExpr l r =>
      dl ← dx σ l i; dr ← dx σ r i;
      Returns (dl * val σ r + val σ l * dr)%dbl
  | DivExpr l r =>
      dl ← dx σ l i; dr ← dx σ r i;
      Returns ((dl * val σ r - val σ l * dr) / (val σ r * val σ r))%dbl
  | ExpExpr v =>
      dv ← dx σ v i; Returns (dv * std.exp (val σ v))%dbl
  | LogExpr v =>
      dv ← dx σ v i; Returns (dv / val σ v)%dbl
  | PowExpr l r =>
      dr ← dx σ r i; dl ← dx σ l i;
      Returns (dr * std.log (val σ l) * std.pow (val σ l) (val σ r)
               + val σ r * dl * std.pow (val σ l) (val σ r - one))%dbl
  end.

(** [ValExpr::diff(idx)] on the stored value:
    [for (int i=0; i < degree; ++i) this->dx(i) = 0.0;]
    [this->dx(idx) = 1.0;] *)
Definition diff (v : AD F) (idx : nat) : outcome (AD F) :=
  v ← for_loop (λ i v, diff_h.dx_set v i zero) 0 degree v;
  diff_h.dx_set v idx one.

(** [ValExpr::assign(r)] run on the variable [x]:
    [this->val() = r.self().val();]
    [for (unsigned i = 0; i < degree; ++i) this->dx(i) = r.self().dx(i);]
    Every read of [r] goes through the references of its nodes, to
    the store as the writes made so far have left it. *)
Definition assign (σ : store F) (x : var) (r : Expr) : outcome (store F) :=
  for_loop (λ i σ, d ← dx σ r i;
                   v ← diff_h.dx_set (σ x) i d;
                   Returns (<[x:=v]> σ))
           0 degree (<[x:=set_x (σ x) (val σ r)]> σ).

(** [ValExpr<T>& operator=(CRTPExpr<R> const& r)] *)
Definition assign_expr (σ : store F) (x : var) (r : Expr) : outcome (store F) :=
  assign σ x r.

(** [ValExpr()], [ValExpr(T const& v)] and [ValExpr(double v)]
    declaring the variable [x]. *)
Definition ValExpr_default (σ : store F) (x : var) : outcome (store F) :=
  v ← AD_default N; Returns (<[x:=v]> σ).
Definition ValExpr_AD (σ : store F) (x : var) (v : AD F) : outcome (store F) :=
  v ← AD_copy N v; Returns (<[x:=v]> σ).
Definition ValExpr_double (σ : store F) (x : var) (v : F) : outcome (store F) :=
  v ← AD_double N v; Returns (<[x:=v]> σ).

(** [ValExpr(CRTPExpr<R> const& r) { assign(r); }] declaring the
    variable [x]: [v_] is default-constructed, then assigned. *)
Definition ValExpr_expr (σ : store F) (x : var) (r : Expr) : outcome (store F) :=
  v ← AD_default N; assign (<[x:=v]> σ) x r.

(** Every variable in scope holds an [AD<N>]. *)
Definition store_wf (σ : store F) : Prop := ∀ x, wf N (σ x).

(** The variables an expression refers to. *)
Fixpoint refers (x : var) (e : Expr) : Prop :=
  match e with
  | ConstExpr _ => False
  | ValExpr y => x = y
  | AddExpr l r | SubExpr l r | MulExpr l r | DivExpr l r | PowExpr l r =>
      refers x l ∨ refers x r
  | ExpExpr v | LogExpr v => refers x v
  end.

(** A tree without a [ValExpr] leaf: [ConstExpr] nodes under
    operators. *)
Fixpoint constant (e : Expr) : bool :=
  match e with
  | ConstExpr _ => true
  | ValExpr _ => false
  | AddExpr l r | SubExpr l r | MulExpr l r | DivExpr l r | PowExpr l r =>
      constant l && constant r
  | ExpExpr v | LogExpr v => constant v
  end.

(** A tree of [AddExpr] and [SubExpr] nodes over leaves. *)
Fixpoint linear (e : Expr) : bool :=
  match e with
  | ConstExpr _ | ValExpr _ => true
  | AddExpr l r | SubExpr l r => linear l && linear r
  | _ => false
  end.

(** *** One arithmetic expression, written twice

    An expression over [+ - * /] whose leaves are dual-number
    variables and constants. *)
Inductive arith :=
| Leaf (x : var)
| Lit (c : F)
| Plus (a b : arith)
| Minus (a b : arith)
| Times (a b : arith)
| Over (a b : arith).

(** Written with [ValExpr] variables: the operator overloads of
    expr.h build the node tree ([operator+] returns
    [AddExpr<A, B>(a.self(), b.self())], and so on). *)
Fixpoint lazy (e : arith) : Expr :=
  match e with
  | Leaf x => ValExpr x
  | Lit c => ConstExpr c
  | Plus a b => AddExpr (lazy a) (lazy b)
  | Minus a b => SubExpr (lazy a) (lazy b)
  | Times a b => MulExpr (lazy a) (lazy b)
  | Over a b => DivExpr (lazy a) (lazy b)
  end.

(** Written with [AD<N>] variables: each operator of diff.h returns a
    materialised temporary. *)
Fixpoint eager (σ : store F) (e : arith) : outcome (AD F) :=
  match e with
  | Leaf x => Returns (σ x)
  | Lit c => AD_double N c
  | Plus a b => l ← eager σ a; r ← eager σ b; add_AD_AD N l r
  | Minus a b => l ← eager σ a; r ← eager σ b; sub_AD_AD N l r
  | Times a b => l ← eager σ a; r ← eager σ b; mul_AD_AD N l r
  | Over a b => l ← eager σ a; r ← eager σ b; div_AD_AD N l r
  end.
End Expr.

Arguments Expr F : clear implicits.
Arguments arith F : clear implicits.
End expr_h.

(** ** The two arithmetics *)

(** IEEE 754 binary64, the [double] of the code. *)
#[global] Instance binary64 : Arith float := {|
  zero := 0%float;
  one := 1%float;
  add := PrimFloat.add;
  sub := PrimFloat.sub;
  mul := PrimFloat.mul;
  div := PrimFloat.div;
  opp := PrimFloat.opp
|}.

(** The real numbers, in which the differentiation rules are exact. *)
#[global] Instance exact : Arith R := {|
  zero := 0%R;
  one := 1%R;
  add := Rplus;
  sub := Rminus;
  mul := Rmult;
  div := Rdiv;
  opp := Ropp
|}.

#[global] Instance libm_exact : std.Libm R := {|
  std.exp := Rtrigo_def.exp;
  std.log := ln;
  std.pow := Rpower
|}.

(** A stand-in for the C library on binary64, which is not part of
    the repository; the headers only call it, and the theorems below
    hold for any [std.Libm float].  It equals a C library where C99
    Annex F (F.9.3.1, F.9.3.7, F.9.4.4) fixes the result: [log] of a
    negative number is NaN, [log(±0)] is −∞, [log(1)] is 0, [exp(0)] is
    1, [pow(x, ±0)] and [pow(1, y)] are 1.  Elsewhere it is computed by
    argument reduction and a truncated series, and may differ from a C
    library in the last places; it runs the examples and is not
    relied on there for more than the bounds they state. *)
Module libm64.
Local Open Scope float_scope.

Definition ln2 : float := 0x1.62e42fefa39efp-1.
Definition sqrt_half : float := 0x1.6a09e667f3bcdp-1.

Definition of_Z (z : Z) : float :=
  match z with
  | Z0 => 0
  | Zpos _ => of_uint63 (Uint63Axioms.of_Z z)
  | Zneg p => - of_uint63 (Uint63Axioms.of_Z (Zpos p))
  end.

(** The integer part of a finite [x] with [|x| < 2^62]. *)
Definition trunc (x : float) : Z :=
  let (m, e) := Z.frexp (abs x) in
  let n := Z.shiftl (Uint63Axioms.to_Z (normfr_mantissa m)) (e - 53) in
  if x <? 0 then Z.opp n else n.

(** [c k + t * (c (k+1) + t * ( ... c (k+n)))] *)
Fixpoint horner (c : nat → float) (k n : nat) (t : float) : float :=
  match n with
  | O => c k
  | S n' => c k + t * horner c (S k) n' t
  end.

(** [1 + r/k * (1 + r/(k+1) * ( ... ))], the exponential series. *)
Fixpoint taylor (k n : nat) (r : float) : float :=
  match n with
  | O => 1
  | S n' => 1 + r / of_Z (Z.of_nat k) * taylor (S k) n' r
  end.

Definition log (x : float) : float :=
  if is_nan x then nan
  else if x <? 0 then nan
  else if x =? 0 then neg_infinity
  else if x =? infinity then infinity
  else
    let (m, e) := Z.frexp x in
    let (m, e) := if m <? sqrt_half then (2 * m, (e - 1)%Z) else (m, e) in
    let z := (m - 1) / (m + 1) in
    of_Z e * ln2
    + 2 * z * horner (λ k, 1 / of_Z (Z.of_nat (2 * k + 1))) 0 24 (z * z).

Definition exp (x : float) : float :=
  if is_nan x then nan
  else if 1024 <? x then infinity
  else if x <? -1100 then 0
  else
    let k := trunc (x / ln2) in
    Z.ldexp (taylor 1 28 (x - of_Z k * ln2)) k.

Definition is_integer (y : float) : bool :=
  (0x1p53 <=? abs y) || (of_Z (trunc y) =? y).

Definition is_odd (y : float) : bool :=
  (abs y <? 0x1p53) && Z.odd (trunc y).

Definition pow (x y : float) : float :=
  if y =? 0 then 1
  else if x =? 1 then 1
  else if is_nan x || is_nan y then nan
  else if y =? 1 then x
  else if x =? 0 then
    (if y <? 0 then (if is_odd y then 1 / x else infinity)
     else (if is_odd y then x else 0))
  else if x <? 0 then
    (if is_integer y
     then (if is_odd y then - exp (y * log (- x)) else exp (y * log (- x)))
     else nan)
  else exp (y * log x).
End libm64.

#[global] Instance libm_binary64 : std.Libm float := {|
  std.exp := libm64.exp;
  std.log := libm64.log;
  std.pow := libm64.pow
|}.

(** ** Objects of the test programs and of the examples below *)

(** Two calls that both return, and return the same object. *)
Definition both_return {A} (o1 o2 : outcome A) : Prop :=
  ∃ r, o1 = Returns r ∧ o2 = Returns r.

Module sample.
Local Open Scope float_scope.

(** [ScalarT a = 1.0; a.diff(0);] and so on, with [AD<3>]. *)
Definition a : AD float := mkAD 1 [1; 0; 0].
Definition b : AD float := mkAD 2 [0; 1; 0].
Definition c : AD float := mkAD 3 [0; 0; 1].

(** The variables [a], [b], [c] of a program over [ValExpr<AD<3>>]. *)
Definition abc : expr_h.store float :=
  <["a":=a]> (<["b":=b]> (<["c":=c]> (λ _, mkAD 0 [0; 0; 0]))).

(** [Val x = 123.0; Val y = 42.0; x.diff(0);] with [AD<1>]. *)
Definition xy : expr_h.store float :=
  <["x":=mkAD 123 [1]]> (<["y":=mkAD 42 [0]]> (λ _, mkAD 0 [0])).

(** [x] holds 2 and is seeded at index 0, with [AD<1>]. *)
Definition x2 : expr_h.store float := <["x":=mkAD 2 [1]]> (λ _, mkAD 0 [0]).

(** [x] holds -1 and is seeded at index 0, with [AD<1>]. *)
Definition xneg : expr_h.store float := <["x":=mkAD (-1) [1]]> (λ _, mkAD 0 [0]).

(** [AD<1>] operands of the compound assignments. *)
Definition p : AD float := mkAD 2 [1].
Definition q : AD float := mkAD 3 [1].
Definition n : AD float := mkAD 6 [1].
Definition d : AD float := mkAD 2 [1].

(** [2.0 * (a + b - c) / 4.0] written with nodes. *)
Definition j : expr_h.arith float :=
  expr_h.Over
    (expr_h.Times (expr_h.Lit 2)
       (expr_h.Minus (expr_h.Plus (expr_h.Leaf "a") (expr_h.Leaf "b"))
          (expr_h.Leaf "c")))
    (expr_h.Lit 4).

(** [x * y] and [x * x]. *)
Definition x_times_y : expr_h.Expr float :=
  expr_h.MulExpr (expr_h.ValExpr "x") (expr_h.ValExpr "y").
Definition x_times_x : expr_h.Expr float :=
  expr_h.MulExpr (expr_h.ValExpr "x") (expr_h.ValExpr "x").

(** [pow(x, ConstExpr(2.0))]. *)
Definition x_squared : expr_h.Expr float :=
  expr_h.PowExpr (expr_h.ValExpr "x") (expr_h.ConstExpr 2).

(** [x + x]. *)
Definition x_plus_x : expr_h.Expr float :=
  expr_h.AddExpr (expr_h.ValExpr "x") (expr_h.ValExpr "x").

(** [AD<1>] operands over the reals: a seeded variable and a constant. *)
Definition pR : AD R := mkAD 2%R [1%R].
Definition kR : AD R := mkAD 3%R [0%R].

(** [a / c] and [log(ConstExpr(6.0) / ConstExpr(3.0))] over the reals. *)
Definition a_over_c : expr_h.Expr R :=
  expr_h.DivExpr (expr_h.ValExpr "a") (expr_h.ValExpr "c").
Definition log_of_quotient : expr_h.Expr R :=
  expr_h.LogExpr (expr_h.DivExpr (expr_h.ConstExpr 6%R) (expr_h.ConstExpr 3%R)).

(** An [AD<1>] seeded at index 0, one whose derivative is [-0.], and
    the scalar [2^-600], whose square underflows to zero. *)
Definition seeded_one : AD float := mkAD 1 [1].
Definition minus_zero : AD float := mkAD 1 [-0].
Definition tiny : float := 0x1p-600.

(** The same three variables over the reals. *)
Definition abcR : expr_h.store R :=
  <["a":=mkAD 1%R [1%R; 0%R; 0%R]]>
    (<["b":=mkAD 2%R [0%R; 1%R; 0%R]]>
       (<["c":=mkAD 3%R [0%R; 0%R; 1%R]]> (λ _, mkAD 0%R [0%R; 0%R; 0%R]))).
End sample.

(** ** Notions used in the statements *)

Section notions.
Context {F : Type} `{Arith F}.

(** The call returns an object that has its [N] slots. *)
Definition returns_wf (N : nat) (o : outcome (AD F)) : Prop :=
  ∃ r, o = Returns r ∧ wf N r.

(** The member operator leaves in the receiver, and returns, the
    object that the free operator returns. *)
Definition in_place_of (c : outcome (call F)) (o : outcome (AD F)) : Prop :=
  ∃ r, c = Returns (mkCall r (Returns r)) ∧ o = Returns r.

(** Two calls that both return objects that have their [N] slots and
    the same value. *)
Definition same_value (N : nat) (o1 o2 : outcome (AD F)) : Prop :=
  ∃ r1 r2, o1 = Returns r1 ∧ o2 = Returns r2 ∧
           wf N r1 ∧ wf N r2 ∧ val r1 = val r2.
End notions.

(** The store in which the value of the variable [x] is [t]. *)
Definition at_value (σ : expr_h.store R) (x : var) (t : R) : expr_h.store R :=
  <[x:=set_x (σ x) t]> σ.

(** The tree is evaluated inside the domains of the real functions:
    no division by zero, logarithms and bases of powers positive. *)
Fixpoint in_domain (σ : expr_h.store R) (e : expr_h.Expr R) : Prop :=
  match e with
  | expr_h.ConstExpr _ | expr_h.ValExpr _ => True
  | expr_h.AddExpr l r | expr_h.SubExpr l r | expr_h.MulExpr l r =>
      in_domain σ l ∧ in_domain σ r
  | expr_h.DivExpr l r =>
      in_domain σ l ∧ in_domain σ r ∧ expr_h.val σ r ≠ 0%R
  | expr_h.ExpExpr v => in_domain σ v
  | expr_h.LogExpr v => in_domain σ v ∧ (0 < expr_h.val σ v)%R
  | expr_h.PowExpr l r =>
      in_domain σ l ∧ in_domain σ r ∧ (0 < expr_h.val σ l)%R
  end.

(** * Properties *)

(** ** The loops over the derivative array *)

Section loops.
Context {F : Type} `{Arith F}.
Variable N : nat.
Implicit Types (a b s : AD F) (i j : nat) (v : F).

Lemma subscript_lt a i : wf N a → i < N → subscript a i = Returns (der a i).
Proof.
  unfold wf, subscript, der. intros Hlen Hi.
  destruct (lookup_lt_is_Some_2 (dx_ a) i) as [v Hv]; [lia|].
  by rewrite Hv.
Qed.

Lemma subscript_ge a i : wf N a → N ≤ i → subscript a i = Undefined.
Proof.
  unfold wf, subscript. intros Hlen Hi.
  by rewrite lookup_ge_None_2 by lia.
Qed.

Lemma subscript_set_lt a i v :
  wf N a → i < N →
  subscript_set a i v = Returns (mkAD (x_ a) (<[i:=v]> (dx_ a))).
Proof.
  unfold wf, subscript_set. intros Hlen Hi.
  destruct (decide (i < length (dx_ a))); [done | lia].
Qed.

Lemma subscript_set_ge a i v :
  wf N a → N ≤ i → subscript_set a i v = Undefined.
Proof.
  unfold wf, subscript_set. intros Hlen Hi.
  destruct (decide (i < length (dx_ a))); [lia | done].
Qed.

Lemma der_lookup a i v : dx_ a !! i = Some v → der a i = v.
Proof. unfold der. by intros ->. Qed.

Lemma der_fill x (g : nat → F) i : i < N → der (mkAD x (g <$> seq 0 N)) i = g i.
Proof.
  intros Hi. apply der_lookup. simpl.
  rewrite list_lookup_fmap, lookup_seq_lt by done. done.
Qed.

Lemma wf_fill x (g : nat → F) : wf N (mkAD x (g <$> seq 0 N)).
Proof. unfold wf. simpl. by rewrite length_fmap, length_seq. Qed.

Lemma fill_ext (g1 g2 : nat → F) :
  (∀ i, i < N → g1 i = g2 i) → g1 <$> seq 0 N = g2 <$> seq 0 N.
Proof.
  intros Hg. apply list_eq. intros i. rewrite !list_lookup_fmap.
  destruct (decide (i < N)) as [Hi|Hi].
  - rewrite lookup_seq_lt by done. simpl. by rewrite Hg.
  - by rewrite lookup_seq_ge by lia.
Qed.

Lemma fill_const v : (λ _, v) <$> seq 0 N = replicate N v.
Proof.
  apply list_eq. intros i. rewrite list_lookup_fmap.
  destruct (decide (i < N)) as [Hi|Hi].
  - rewrite lookup_seq_lt, lookup_replicate_2 by done. done.
  - rewrite lookup_seq_ge by lia. symmetry. apply lookup_replicate_None. lia.
Qed.

Lemma fill_id a : wf N a → der a <$> seq 0 N = dx_ a.
Proof.
  unfold wf. intros Hlen. apply list_eq. intros i.
  rewrite list_lookup_fmap.
  destruct (decide (i < N)) as [Hi|Hi].
  - rewrite lookup_seq_lt by done. simpl. unfold der.
    destruct (lookup_lt_is_Some_2 (dx_ a) i) as [v Hv]; [lia|].
    by rewrite Hv.
  - rewrite lookup_seq_ge, lookup_ge_None_2 by lia. done.
Qed.

(** An object that has its slots is the record of its value and of
    its derivatives. *)
Lemma fill_self a : wf N a → mkAD (x_ a) (der a <$> seq 0 N) = a.
Proof. intros Ha. rewrite fill_id by done. by destruct a. Qed.

Lemma filled_wf g a k s : wf N a → k ≤ N → filled g a k s → wf N s.
Proof.
  unfold wf. intros Hlen Hk [_ ->].
  rewrite length_app, length_fmap, length_seq, length_drop. lia.
Qed.

Lemma filled_rest g a k s j :
  filled g a k s → k ≤ j → dx_ s !! j = dx_ a !! j.
Proof.
  intros [_ ->] Hj.
  rewrite lookup_app_r; rewrite length_fmap, length_seq; [|done].
  rewrite lookup_drop. f_equal. lia.
Qed.

Lemma filled_step g a k s :
  wf N a → k < N → filled g a k s →
  filled g a (S k) (mkAD (x_ s) (<[k:=g k]> (dx_ s))).
Proof.
  unfold wf. intros Hlen Hk [Hx Hd]. split; [done|]. cbn [dx_]. rewrite Hd.
  destruct (lookup_lt_is_Some_2 (dx_ a) k) as [v Hv]; [lia|].
  rewrite (drop_S _ _ _ Hv).
  replace k with (length (g <$> seq 0 k) + 0) at 1
    by (rewrite length_fmap, length_seq; lia).
  rewrite insert_app_r, seq_S, fmap_app, <- app_assoc. done.
Qed.

(** A loop whose [i]-th iteration stores [g i] in slot [i] and leaves
    the rest of the object alone fills the array with [g 0 .. g (N-1)]. *)
Lemma for_loop_fill (g : nat → F) (body : nat → AD F → outcome (AD F)) a :
  wf N a →
  (∀ i s, i < N → filled g a i s →
     body i s = Returns (mkAD (x_ s) (<[i:=g i]> (dx_ s)))) →
  for_loop body 0 N a = Returns (mkAD (x_ a) (g <$> seq 0 N)).
Proof.
  intros Hlen Hbody.
  assert (∀ m k s, k + m = N → filled g a k s →
            for_loop body k m s = Returns (mkAD (x_ a) (g <$> seq 0 N))) as Hgen.
  { induction m as [|m IH]; intros k s Hkm Hs.
    - simpl. destruct s as [x d], Hs as [Hx Hd]. simpl in *. subst x d.
      replace k with N by lia.
      rewrite drop_ge, app_nil_r by (unfold wf in Hlen; lia). done.
    - simpl. rewrite Hbody by (done || lia). simpl.
      apply IH; [lia|]. apply filled_step; [done | lia | done]. }
  apply Hgen; [lia|]. split; [done|]. by rewrite drop_0.
Qed.
End loops.

(** ** diff.h: what the operations compute *)

Section eager.
Context {F : Type} `{Arith F}.
Variable N : nat.
Implicit Types (a b L R s : AD F) (i j : nat) (v x : F).

Lemma wf_set_x a x : wf N a → wf N (set_x a x).
Proof. done. Qed.

Lemma wf_storage : wf N (storage (F:=F) N).
Proof. unfold wf, storage. simpl. apply length_replicate. Qed.

Lemma zero__fill a :
  wf N a → zero_ N a = Returns (mkAD (x_ a) (replicate N zero)).
Proof.
  intros Ha. unfold zero_.
  rewrite (for_loop_fill N (λ _, zero)), fill_const; [done | done |].
  intros i s Hi Hs. apply (subscript_set_lt N); [|done].
  eapply filled_wf; [done | | done]. lia.
Qed.

Lemma wf_zeroed x : wf N (mkAD x (replicate N zero)).
Proof. unfold wf. simpl. apply length_replicate. Qed.

Lemma AD_default_fill :
  AD_default (F:=F) N = Returns (mkAD zero (replicate N zero)).
Proof. unfold AD_default. by rewrite zero__fill by apply wf_storage. Qed.

Lemma AD_double_fill x :
  AD_double N x = Returns (mkAD x (replicate N zero)).
Proof. unfold AD_double. by rewrite zero__fill by apply wf_storage. Qed.

Lemma der_zeroed x i : der (mkAD x (replicate N zero)) i = zero.
Proof.
  unfold der. simpl. destruct (decide (i < N)).
  - by rewrite lookup_replicate_2.
  - rewrite (proj1 (lookup_replicate_None _ _ _)) by lia. done.
Qed.

(** The read of an operand inside a loop over [i < N]. *)
Lemma dx_lt a i : wf N a → i < N → dx a i = Returns (der a i).
Proof. apply subscript_lt. Qed.

(** The write of [tmp.dx(i)] inside a loop over [i < N]. *)
Lemma dx_set_filled g a k s v :
  wf N a → k < N → filled g a k s →
  dx_set s k v = Returns (mkAD (x_ s) (<[k:=v]> (dx_ s))).
Proof.
  intros Ha Hk Hs. apply (subscript_set_lt N); [|done].
  eapply filled_wf; [done | | done]. lia.
Qed.

(** The read of the receiver's own slot [i] in iteration [i]: not yet
    overwritten. *)
Lemma subscript_filled g a k s :
  wf N a → k < N → filled g a k s → subscript s k = Returns (der a k).
Proof.
  intros Ha Hk Hs.
  rewrite (subscript_lt N) by (done || (eapply filled_wf; [done | | done]; lia)).
  unfold der. by rewrite (filled_rest g a k s k Hs).
Qed.

(** A free operator: [tmp] default-constructed, the loop, then the
    value. *)
Lemma operator_fill (g : nat → F) body x :
  (∀ i s, i < N → filled g (mkAD zero (replicate N zero)) i s →
     body i s = Returns (mkAD (x_ s) (<[i:=g i]> (dx_ s)))) →
  (tmp ← AD_default N; tmp ← for_loop body 0 N tmp; Returns (set_x tmp x))
  = Returns (mkAD x (g <$> seq 0 N)).
Proof.
  intros Hbody. rewrite AD_default_fill. simpl.
  rewrite (for_loop_fill N g) by (apply wf_zeroed || done). done.
Qed.

Ltac free_operator g :=
  intros; apply (operator_fill g); intros i s Hi Hs;
  rewrite ?(dx_lt _ i) by done; simpl;
  apply (dx_set_filled _ _ _ _ _ (wf_zeroed zero) Hi Hs).

Lemma add_double_AD_fill x R :
  wf N R → add_double_AD N x R = Returns (mkAD (x + x_ R)%dbl (der R <$> seq 0 N)).
Proof. free_operator (der R). Qed.

Lemma add_AD_double_fill L x :
  wf N L → add_AD_double N L x = Returns (mkAD (x_ L + x)%dbl (der L <$> seq 0 N)).
Proof. free_operator (der L). Qed.

Lemma add_AD_AD_fill L R :
  wf N L → wf N R →
  add_AD_AD N L R
  = Returns (mkAD (x_ L + x_ R)%dbl ((λ i, der L i + der R i)%dbl <$> seq 0 N)).
Proof. free_operator (λ i, der L i + der R i)%dbl. Qed.

Lemma sub_double_AD_fill x R :
  wf N R →
  sub_double_AD N x R
  = Returns (mkAD (x - x_ R)%dbl ((λ i, - der R i)%dbl <$> seq 0 N)).
Proof. free_operator (λ i, - der R i)%dbl. Qed.

Lemma sub_AD_double_fill L x :
  wf N L → sub_AD_double N L x = Returns (mkAD (x_ L - x)%dbl (der L <$> seq 0 N)).
Proof. free_operator (der L). Qed.

Lemma sub_AD_AD_fill L R :
  wf N L → wf N R →
  sub_AD_AD N L R
  = Returns (mkAD (x_ L - x_ R)%dbl ((λ i, der L i - der R i)%dbl <$> seq 0 N)).
Proof. free_operator (λ i, der L i - der R i)%dbl. Qed.

Lemma mul_double_AD_fill x R :
  wf N R →
  mul_double_AD N x R
  = Returns (mkAD (x * x_ R)%dbl ((λ i, x * der R i)%dbl <$> seq 0 N)).
Proof. free_operator (λ i, x * der R i)%dbl. Qed.

Lemma mul_AD_double_fill L x :
  wf N L →
  mul_AD_double N L x
  = Returns (mkAD (x_ L * x)%dbl ((λ i, der L i * x)%dbl <$> seq 0 N)).
Proof. free_operator (λ i, der L i * x)%dbl. Qed.

Lemma mul_AD_AD_fill L R :
  wf N L → wf N R →
  mul_AD_AD N L R
  = Returns (mkAD (x_ L * x_ R)%dbl
               ((λ i, der L i * x_ R + x_ L * der R i)%dbl <$> seq 0 N)).
Proof. free_operator (λ i, der L i * x_ R + x_ L * der R i)%dbl. Qed.

Lemma div_double_AD_fill x R :
  wf N R →
  div_double_AD N x R
  = Returns (mkAD (x / x_ R)%dbl
               ((λ i, (- x * der R i) / (x_ R * x_ R))%dbl <$> seq 0 N)).
Proof. free_operator (λ i, (- x * der R i) / (x_ R * x_ R))%dbl. Qed.

Lemma div_AD_double_fill L x :
  wf N L →
  div_AD_double N L x
  = Returns (mkAD (x_ L / x)%dbl ((λ i, der L i / x)%dbl <$> seq 0 N)).
Proof. free_operator (λ i, der L i / x)%dbl. Qed.

Lemma div_AD_AD_fill L R :
  wf N L → wf N R →
  div_AD_AD N L R
  = Returns (mkAD (x_ L / x_ R)%dbl
               ((λ i, (der L i * x_ R - x_ L * der R i) / (x_ R * x_ R))%dbl
                  <$> seq 0 N)).
Proof.
  free_operator (λ i, (der L i * x_ R - x_ L * der R i) / (x_ R * x_ R))%dbl.
Qed.
End eager.

(** ** Seeding, indexing and scalar assignment *)

Section members.
Context {F : Type} `{Arith F}.
Variable N : nat.
Implicit Types (a b : AD F) (i j : nat) (s : F).

Lemma diff_fill a i :
  wf N a → i < N →
  diff N a i = Returns (mkAD (x_ a) (<[i:=one]> (replicate N zero))).
Proof.
  intros Ha Hi. unfold diff. rewrite zero__fill by done. simpl.
  by rewrite (subscript_set_lt N) by (apply wf_zeroed || done).
Qed.

Lemma ValExpr_diff_fill a i :
  wf N a → i < N →
  expr_h.diff N a i = Returns (mkAD (x_ a) (<[i:=one]> (replicate N zero))).
Proof.
  intros Ha Hi. unfold expr_h.diff, expr_h.degree.
  rewrite (for_loop_fill N (λ _, zero)), fill_const; [| done |].
  - simpl. unfold dx_set.
    by rewrite (subscript_set_lt N) by (apply wf_zeroed || done).
  - intros k s Hk Hs. by apply (dx_set_filled N (λ _, zero) a).
Qed.

(** C7: for a dual number of dimension [N], a valid index [i] and any
    prior gradient, [diff(i)] (of [AD] and of [ValExpr]) leaves
    derivative [i] equal to 1, every other derivative equal to 0 and
    the value unchanged. *)
Theorem diff_resets_to_unit_vector a i :
  wf N a → i < N →
  ∃ a', diff N a i = Returns a' ∧ expr_h.diff N a i = Returns a' ∧
        val a' = val a ∧
        dx a' i = Returns one ∧
        ∀ j, j < N → j ≠ i → dx a' j = Returns zero.
Proof.
  intros Ha Hi. exists (mkAD (x_ a) (<[i:=one]> (replicate N zero))).
  split; [by apply diff_fill|]. split; [by apply ValExpr_diff_fill|].
  split; [done|]. unfold dx, subscript. simpl. split.
  - by rewrite list_lookup_insert_eq by (rewrite length_replicate; lia).
  - intros j Hj Hne.
    by rewrite list_lookup_insert_ne, lookup_replicate_2 by done.
Qed.

(** C4, as the code has it: [diff] and [dx] subscript the array
    without a check.  With an index in [0,N) they return; with an
    index outside, the subscript is out of bounds and the call is
    undefined.  Neither reports an error. *)
Theorem index_is_unchecked a i :
  wf N a →
  (i < N → (∃ a', diff N a i = Returns a') ∧ dx a i = Returns (der a i)) ∧
  (N ≤ i → diff N a i = Undefined ∧ dx a i = Undefined) ∧
  ¬ reports_error (diff N a i) ∧ ¬ reports_error (dx a i).
Proof.
  intros Ha.
  assert (N ≤ i → diff N a i = Undefined ∧ dx a i = Undefined) as Hout.
  { intros Hi. split; [|by apply (subscript_ge N)].
    unfold diff. rewrite zero__fill by done. simpl.
    by rewrite (subscript_set_ge N) by (apply wf_zeroed || done). }
  assert (i < N → (∃ a', diff N a i = Returns a') ∧ dx a i = Returns (der a i))
    as Hin.
  { intros Hi. split; [|by apply (subscript_lt N)].
    eexists. by apply diff_fill. }
  split; [done|]. split; [done|].
  destruct (decide (i < N)) as [Hi|Hi].
  - destruct (Hin Hi) as [[a' ->] ->]. split; intros [w Hw]; discriminate.
  - destruct Hout as [-> ->]; [lia|]. split; intros [w Hw]; discriminate.
Qed.

(** C9: assigning a scalar [s] sets the value to [s] and every
    derivative to zero, and returns the receiver; a variable seeded
    by [diff(k)] before the assignment has lost its seeding after
    it. *)
Theorem assign_double_resets a s :
  wf N a →
  ∃ a', assign_double N a s = Returns (mkCall a' (Returns a')) ∧
        val a' = s ∧
        (∀ i, i < N → dx a' i = Returns zero) ∧
        ∀ k, k < N →
          (b ← diff N a k; assign_double N b s)
          = Returns (mkCall a' (Returns a')).
Proof.
  intros Ha. exists (mkAD s (replicate N zero)).
  assert (∀ b, wf N b →
            assign_double N b s
            = Returns (mkCall (mkAD s (replicate N zero))
                              (Returns (mkAD s (replicate N zero))))) as Hassign.
  { intros b Hb. unfold assign_double. by rewrite zero__fill by done. }
  split; [by apply Hassign|]. split; [done|]. split.
  - intros i Hi. rewrite (dx_lt N) by (apply wf_zeroed || done).
    by rewrite der_zeroed.
  - intros k Hk. rewrite diff_fill by done. simpl. apply Hassign.
    unfold wf. simpl. by rewrite length_insert, length_replicate.
Qed.

(** C10: [+= s] and [-= s] with a scalar [s] change the value by
    [+s] and [-s] and leave the derivative array as it was; they
    return the receiver. *)
Theorem scalar_add_sub_assign_frame a s :
  (∃ a', add_assign_double a s = Returns (mkCall a' (Returns a')) ∧
         val a' = (val a + s)%dbl ∧ dx_ a' = dx_ a ∧
         ∀ i, dx a' i = dx a i) ∧
  (∃ a', sub_assign_double a s = Returns (mkCall a' (Returns a')) ∧
         val a' = (val a - s)%dbl ∧ dx_ a' = dx_ a ∧
         ∀ i, dx a' i = dx a i).
Proof. split; eexists; repeat split. Qed.
End members.

(** ** The compound assignments [*=] and [/=] with a dual number *)

Section compound.
Context {F : Type} `{Arith F}.
Variable N : nat.
Implicit Types (a b : AD F) (i j : nat).

Ltac member_loop g a0 :=
  rewrite (for_loop_fill N g) by
    (done ||
     (intros i s Hi Hs;
      rewrite ?(subscript_filled N g a0 i s) by done;
      rewrite ?(subscript_lt N _ i) by done;
      simpl; destruct Hs as [Hx Hd];
      rewrite (subscript_set_lt N) by
        (done || (apply (filled_wf N g a0 i); [done | lia | by split]));
      by rewrite Hx)).

(** What [a *= b] leaves in [a], for distinct objects: the value
    [a·b], and in slot [i] the sum [da(i)·b + (a·b)·db(i)], the second
    factor being the value already multiplied. *)
Lemma mul_assign_AD_fill a b :
  wf N a → wf N b →
  mul_assign_AD N a (object b)
  = Returns (mkCall
      (mkAD (x_ a * x_ b)%dbl
         ((λ i, der a i * x_ b + (x_ a * x_ b) * der b i)%dbl <$> seq 0 N))
      Undefined).
Proof.
  intros Ha Hb. unfold mul_assign_AD. simpl.
  member_loop (λ i, der a i * x_ b + (x_ a * x_ b) * der b i)%dbl
              (set_x a (x_ a * x_ b)%dbl).
  done.
Qed.

(** What [a /= b] leaves in [a], for distinct objects: the value
    [a/b], and in slot [i] the quotient
    [(da(i)·b − (a/b)·db(i)) / (b·b)]. *)
Lemma div_assign_AD_fill a b :
  wf N a → wf N b →
  div_assign_AD N a (object b)
  = Returns (mkCall
      (mkAD (x_ a / x_ b)%dbl
         ((λ i, (der a i * x_ b - (x_ a / x_ b) * der b i) / (x_ b * x_ b))%dbl
            <$> seq 0 N))
      Undefined).
Proof.
  intros Ha Hb. unfold div_assign_AD. simpl.
  member_loop (λ i, (der a i * x_ b - (x_ a / x_ b) * der b i) / (x_ b * x_ b))%dbl
              (set_x a (x_ a / x_ b)%dbl).
  done.
Qed.

(** [a *= a]: [other] is the receiver, so [other.x_] is the updated
    value as well. *)
Lemma mul_assign_AD_itself_fill a :
  wf N a →
  mul_assign_AD N a itself
  = Returns (mkCall
      (mkAD (x_ a * x_ a)%dbl
         ((λ i, der a i * (x_ a * x_ a) + (x_ a * x_ a) * der a i)%dbl
            <$> seq 0 N))
      Undefined).
Proof.
  intros Ha. unfold mul_assign_AD. simpl.
  member_loop (λ i, der a i * (x_ a * x_ a) + (x_ a * x_ a) * der a i)%dbl
              (set_x a (x_ a * x_ a)%dbl).
  done.
Qed.

(** [copy(other)] leaves the value and the derivatives of [other]. *)
Lemma copy_fill a (o : operand F) :
  wf N a → wf N (deref a o) →
  copy N a o
  = Returns (mkAD (x_ (deref a o)) (der (deref a o) <$> seq 0 N)).
Proof.
  intros Ha Ho. unfold copy. destruct o as [|b]; cbn [deref] in *.
  - member_loop (der a) (set_x a (x_ a)). done.
  - member_loop (der b) (set_x a (x_ b)). done.
Qed.

Lemma add_assign_AD_fill a (o : operand F) :
  wf N a → wf N (deref a o) →
  add_assign_AD N a o
  = return_this (mkAD (x_ a + x_ (deref a o))%dbl
                   ((λ i, der a i + der (deref a o) i)%dbl <$> seq 0 N)).
Proof.
  intros Ha Ho. unfold add_assign_AD. destruct o as [|b]; cbn [deref] in *.
  - member_loop (λ i, der a i + der a i)%dbl (set_x a (x_ a + x_ a)%dbl). done.
  - member_loop (λ i, der a i + der b i)%dbl (set_x a (x_ a + x_ b)%dbl). done.
Qed.

Lemma sub_assign_AD_fill a (o : operand F) :
  wf N a → wf N (deref a o) →
  sub_assign_AD N a o
  = return_this (mkAD (x_ a - x_ (deref a o))%dbl
                   ((λ i, der a i - der (deref a o) i)%dbl <$> seq 0 N)).
Proof.
  intros Ha Ho. unfold sub_assign_AD. destruct o as [|b]; cbn [deref] in *.
  - member_loop (λ i, der a i - der a i)%dbl (set_x a (x_ a - x_ a)%dbl). done.
  - member_loop (λ i, der a i - der b i)%dbl (set_x a (x_ a - x_ b)%dbl). done.
Qed.

Lemma mul_assign_double_fill a (c : F) :
  wf N a →
  mul_assign_double N a c
  = return_this (mkAD (x_ a * c)%dbl ((λ i, der a i * c)%dbl <$> seq 0 N)).
Proof.
  intros Ha. unfold mul_assign_double.
  member_loop (λ i, der a i * c)%dbl (set_x a (x_ a * c)%dbl). done.
Qed.

Lemma div_assign_double_fill a (c : F) :
  wf N a →
  div_assign_double N a c
  = return_this (mkAD (x_ a / c)%dbl ((λ i, der a i / c)%dbl <$> seq 0 N)).
Proof.
  intros Ha. unfold div_assign_double.
  member_loop (λ i, der a i / c)%dbl (set_x a (x_ a / c)%dbl). done.
Qed.

(** X2: the copy constructor builds an object equal to its argument,
    [a = b] leaves [b] in [a] and returns it, and the self-assignment
    [a = a] leaves [a] as it was. *)
Theorem copy_is_faithful a b :
  wf N a → wf N b →
  AD_copy N b = Returns b ∧
  assign_AD N a (object b) = Returns (mkCall b (Returns b)) ∧
  assign_AD N a itself = Returns (mkCall a (Returns a)).
Proof.
  intros Ha Hb. unfold AD_copy, assign_AD.
  rewrite !copy_fill by (done || apply wf_storage). cbn [deref].
  rewrite !(fill_self N) by done. done.
Qed.

(** X3: every compound assignment other than [*=] and [/=] with a
    dual number leaves in the receiver, and returns, the object that
    the free operator of the same name returns; for [+=] and [-=] also
    when the operand is the receiver itself. *)
Theorem in_place_matches_free a b (s : F) :
  wf N a → wf N b →
  in_place_of (add_assign_double a s) (add_AD_double N a s) ∧
  in_place_of (add_assign_AD N a (object b)) (add_AD_AD N a b) ∧
  in_place_of (add_assign_AD N a itself) (add_AD_AD N a a) ∧
  in_place_of (sub_assign_double a s) (sub_AD_double N a s) ∧
  in_place_of (sub_assign_AD N a (object b)) (sub_AD_AD N a b) ∧
  in_place_of (sub_assign_AD N a itself) (sub_AD_AD N a a) ∧
  in_place_of (mul_assign_double N a s) (mul_AD_double N a s) ∧
  in_place_of (div_assign_double N a s) (div_AD_double N a s).
Proof.
  intros Ha Hb.
  rewrite !add_assign_AD_fill, !sub_assign_AD_fill, mul_assign_double_fill,
    div_assign_double_fill, add_AD_double_fill, sub_AD_double_fill,
    !add_AD_AD_fill, !sub_AD_AD_fill, mul_AD_double_fill, div_AD_double_fill
    by done.
  unfold add_assign_double, sub_assign_double, return_this, set_x.
  rewrite (fill_id N a) by done. cbn [deref].
  repeat split; eexists; (split; [reflexivity | reflexivity]).
Qed.

Lemma div_assign_AD_itself_fill a :
  wf N a →
  div_assign_AD N a itself
  = Returns (mkCall
      (mkAD (x_ a / x_ a)%dbl
         ((λ i, (der a i * (x_ a / x_ a) - (x_ a / x_ a) * der a i)
                / ((x_ a / x_ a) * (x_ a / x_ a)))%dbl <$> seq 0 N))
      Undefined).
Proof.
  intros Ha. unfold div_assign_AD. simpl.
  member_loop (λ i, (der a i * (x_ a / x_ a) - (x_ a / x_ a) * der a i)
                    / ((x_ a / x_ a) * (x_ a / x_ a)))%dbl
              (set_x a (x_ a / x_ a)%dbl).
  done.
Qed.

(** X15: [a *= b] and [a /= b] with a dual number, another object or
    the receiver itself, never return: control reaches the end of the
    body without a [return] statement and the call has no defined
    behaviour, where [*=] and [/=] with a scalar return what the free
    operators return. *)
Theorem mul_div_assign_AD_undefined a (o : operand F) (c : F) :
  wf N a → wf N (deref a o) →
  whole_call (mul_assign_AD N a o) = Undefined ∧
  whole_call (div_assign_AD N a o) = Undefined ∧
  whole_call (mul_assign_double N a c) = mul_AD_double N a c ∧
  whole_call (div_assign_double N a c) = div_AD_double N a c.
Proof.
  intros Ha Ho.
  rewrite mul_assign_double_fill, div_assign_double_fill,
    mul_AD_double_fill, div_AD_double_fill by done.
  destruct o as [|b]; cbn [deref] in Ho.
  - by rewrite mul_assign_AD_itself_fill, div_assign_AD_itself_fill.
  - by rewrite mul_assign_AD_fill, div_assign_AD_fill.
Qed.

(** X1: the constructors and the twelve free operators, given
    operands that have their [N] slots, return normally, and return
    an object that has its [N] slots: no subscript of theirs leaves an
    array. *)
Theorem free_operators_keep_the_array L R (x : F) :
  wf N L → wf N R →
  returns_wf N (AD_default N) ∧ returns_wf N (AD_double N x) ∧
  returns_wf N (AD_copy N L) ∧
  returns_wf N (add_double_AD N x R) ∧ returns_wf N (add_AD_double N L x) ∧
  returns_wf N (add_AD_AD N L R) ∧
  returns_wf N (sub_double_AD N x R) ∧ returns_wf N (sub_AD_double N L x) ∧
  returns_wf N (sub_AD_AD N L R) ∧
  returns_wf N (mul_double_AD N x R) ∧ returns_wf N (mul_AD_double N L x) ∧
  returns_wf N (mul_AD_AD N L R) ∧
  returns_wf N (div_double_AD N x R) ∧ returns_wf N (div_AD_double N L x) ∧
  returns_wf N (div_AD_AD N L R).
Proof.
  intros HL HR. unfold AD_copy.
  rewrite AD_default_fill, AD_double_fill, copy_fill,
    add_double_AD_fill, add_AD_double_fill, add_AD_AD_fill,
    sub_double_AD_fill, sub_AD_double_fill, sub_AD_AD_fill,
    mul_double_AD_fill, mul_AD_double_fill, mul_AD_AD_fill,
    div_double_AD_fill, div_AD_double_fill, div_AD_AD_fill
    by (done || apply wf_storage).
  repeat split; eexists; (split; [reflexivity|]);
    apply wf_zeroed || apply wf_fill.
Qed.
End compound.

Ltac float_neq :=
  let E := fresh in
  intros E;
  match type of E with
  | ?x = ?y => apply (f_equal (λ z, PrimFloat.eqb z y)) in E
  end;
  vm_compute in E; discriminate E.

(** C2, on the code: with [a = (2, [1])] and [b = (3, [1])], [a *= b]
    leaves the value 6 and the derivative [1·3 + 6·1 = 9], where the
    product rule over the values before the assignment gives
    [1·3 + 2·1 = 5]; and the operator ends without returning the
    receiver. *)
Theorem mul_assign_AD_defect :
  mul_assign_AD 1 sample.p (object sample.q)
  = Returns (mkCall (mkAD 6%float [9%float]) Undefined) ∧
  (der sample.p 0 * val sample.q + val sample.p * der sample.q 0)%dbl = 5%float ∧
  9%float ≠ 5%float.
Proof. split; [reflexivity|]. split; [reflexivity|]. float_neq. Qed.

(** C3, on the code: with [a = (6, [1])] and [b = (2, [1])], [a /= b]
    leaves the value 3 and the derivative [(1·2 − 3·1)/(2·2) = −0.25],
    where the quotient rule over the values before the assignment
    gives [(1·2 − 6·1)/(2·2) = −1]; and the operator ends without
    returning the receiver. *)
Theorem div_assign_AD_defect :
  val sample.d ≠ 0%float ∧
  div_assign_AD 1 sample.n (object sample.d)
  = Returns (mkCall (mkAD 3%float [(-0.25)%float]) Undefined) ∧
  ((der sample.n 0 * val sample.d - val sample.n * der sample.d 0)
   / (val sample.d * val sample.d))%dbl = (-1)%float ∧
  (-0.25)%float ≠ (-1)%float.
Proof.
  split; [float_neq|]. split; [reflexivity|]. split; [reflexivity|]. float_neq.
Qed.

(** ** expr.h: lazy evaluation and materialisation *)

Section lazy.
Context {F : Type} `{Arith F} `{std.Libm F}.
Variable N : nat.
Implicit Types (σ τ : expr_h.store F) (e : expr_h.Expr F) (x y : var) (i : nat).

(** Evaluation reads the store only at the variables the expression
    refers to. *)
Lemma val_ext σ τ e :
  (∀ y, expr_h.refers y e → σ y = τ y) → expr_h.val σ e = expr_h.val τ e.
Proof.
  induction e; simpl; intros Hagree;
    rewrite ?IHe, ?IHe1, ?IHe2 by (intros; apply Hagree; auto);
    try done.
  by rewrite Hagree.
Qed.

Lemma dx_ext σ τ e i :
  (∀ y, expr_h.refers y e → σ y = τ y) → expr_h.dx σ e i = expr_h.dx τ e i.
Proof.
  induction e; simpl; intros Hagree;
    rewrite ?IHe, ?IHe1, ?IHe2 by (intros; apply Hagree; auto);
    rewrite ?(val_ext σ τ e), ?(val_ext σ τ e1), ?(val_ext σ τ e2)
      by (intros; apply Hagree; simpl; auto);
    try done.
  by rewrite Hagree.
Qed.

(** Within the dimension every node has a derivative. *)
Lemma dx_returns σ e i :
  expr_h.store_wf N σ → i < N → ∃ d, expr_h.dx σ e i = Returns d.
Proof.
  intros Hσ Hi. induction e; simpl;
    repeat match goal with
           | IH : ∃ d, expr_h.dx σ ?e i = Returns d |- _ =>
               let d := fresh "d" in
               let E := fresh "E" in
               destruct IH as [d E]; rewrite E; clear E
           end; simpl; eauto.
  rewrite (dx_lt N) by done. eauto.
Qed.

(** C1: an expression over [+ - * /] with dual-number variables and
    constants at its leaves has, evaluated lazily through the nodes
    of expr.h, the value and every derivative [i < N] that the
    operators of diff.h compute eagerly for it. *)
Theorem lazy_eager_equivalence σ (e : expr_h.arith F) :
  expr_h.store_wf N σ →
  ∃ r, expr_h.eager N σ e = Returns r ∧
       wf N r ∧
       expr_h.val σ (expr_h.lazy e) = val r ∧
       ∀ i, i < N → expr_h.dx σ (expr_h.lazy e) i = dx r i.
Proof.
  intros Hσ.
  induction e as [x | c | e1 [l [El [Hl [Vl Dl]]]] e2 [r [Er [Hr [Vr Dr]]]]
                        | e1 [l [El [Hl [Vl Dl]]]] e2 [r [Er [Hr [Vr Dr]]]]
                        | e1 [l [El [Hl [Vl Dl]]]] e2 [r [Er [Hr [Vr Dr]]]]
                        | e1 [l [El [Hl [Vl Dl]]]] e2 [r [Er [Hr [Vr Dr]]]]];
    simpl.
  - exists (σ x). split; [done|]. split; [apply Hσ|]. done.
  - rewrite AD_double_fill. eexists. split; [done|].
    split; [apply wf_zeroed|]. split; [done|].
    intros i Hi. rewrite (dx_lt N) by (apply wf_zeroed || done).
    by rewrite der_zeroed.
  - rewrite El, Er. simpl. rewrite add_AD_AD_fill by done.
    eexists. split; [done|]. split; [apply wf_fill|].
    split; [by rewrite Vl, Vr|]. intros i Hi.
    rewrite Dl, Dr, !(dx_lt N) by (apply wf_fill || done).
    simpl. by rewrite der_fill.
  - rewrite El, Er. simpl. rewrite sub_AD_AD_fill by done.
    eexists. split; [done|]. split; [apply wf_fill|].
    split; [by rewrite Vl, Vr|]. intros i Hi.
    rewrite Dl, Dr, !(dx_lt N) by (apply wf_fill || done).
    simpl. by rewrite der_fill.
  - rewrite El, Er. simpl. rewrite mul_AD_AD_fill by done.
    eexists. split; [done|]. split; [apply wf_fill|].
    split; [by rewrite Vl, Vr|]. intros i Hi.
    rewrite Dl, Dr, !(dx_lt N) by (apply wf_fill || done).
    simpl. by rewrite der_fill, Vl, Vr.
  - rewrite El, Er. simpl. rewrite div_AD_AD_fill by done.
    eexists. split; [done|]. split; [apply wf_fill|].
    split; [by rewrite Vl, Vr|]. intros i Hi.
    rewrite Dl, Dr, !(dx_lt N) by (apply wf_fill || done).
    simpl. by rewrite der_fill, Vl, Vr.
Qed.
End lazy.

Section materialise.
Context {F : Type} `{Arith F} `{std.Libm F}.
Variable N : nat.
Implicit Types (σ τ : expr_h.store F) (e : expr_h.Expr F) (x y : var) (i : nat).

(** [assign] always terminates normally on a well-formed store, sets
    the value of the target to the value of the tree and touches no
    other variable. *)
Lemma assign_value σ x e :
  expr_h.store_wf N σ →
  ∃ τ, expr_h.assign N σ x e = Returns τ ∧
       val (τ x) = expr_h.val σ e ∧
       ∀ y, y ≠ x → τ y = σ y.
Proof.
  intros Hσ. unfold expr_h.assign, expr_h.degree.
  match goal with |- context [for_loop ?f _ _ _] => set (body := f) end.
  assert (∀ m k τ, expr_h.store_wf N τ → k + m = N →
            ∃ τ', for_loop body k m τ = Returns τ' ∧
                  x_ (τ' x) = x_ (τ x) ∧ ∀ y, y ≠ x → τ' y = τ y) as Hloop.
  { induction m as [|m IH]; intros k τ Hτ Hk.
    - by exists τ.
    - destruct (dx_returns N τ e k Hτ) as [d Hd]; [lia|].
      assert (body k τ
              = Returns (<[x:=mkAD (x_ (τ x)) (<[k:=d]> (dx_ (τ x)))]> τ)) as Hstep.
      { unfold body. rewrite Hd. simpl. unfold dx_set.
        by rewrite (subscript_set_lt N) by (apply Hτ || lia). }
      change (for_loop body k (S m) τ) with (body k τ ≫= for_loop body (S k) m).
      rewrite Hstep. simpl.
      destruct (IH (S k) (<[x:=mkAD (x_ (τ x)) (<[k:=d]> (dx_ (τ x)))]> τ))
        as [τ' [E [Hx Hy]]]; [|lia|].
      + intros y. destruct (decide (x = y)) as [<-|Hne].
        * rewrite fn_lookup_insert. unfold wf. simpl.
          rewrite length_insert. apply Hτ.
        * rewrite fn_lookup_insert_ne by done. apply Hτ.
      + exists τ'. split; [done|]. split.
        * by rewrite Hx, fn_lookup_insert.
        * intros y Hne. rewrite Hy by done. by rewrite fn_lookup_insert_ne. }
  destruct (Hloop N 0 (<[x:=set_x (σ x) (expr_h.val σ e)]> σ))
    as [τ [E [Hx Hy]]]; [|lia|].
  - intros y. destruct (decide (x = y)) as [<-|Hne].
    + rewrite fn_lookup_insert. apply wf_set_x, Hσ.
    + rewrite fn_lookup_insert_ne by done. apply Hσ.
  - exists τ. split; [done|]. split.
    + unfold val. by rewrite Hx, fn_lookup_insert.
    + intros y Hne. rewrite Hy by done. by rewrite fn_lookup_insert_ne.
Qed.

(** When the tree does not refer to the target, every derivative
    stored is the derivative of the tree. *)
Lemma assign_derivatives σ x e :
  expr_h.store_wf N σ → ¬ expr_h.refers x e →
  ∃ τ, expr_h.assign N σ x e = Returns τ ∧
       ∀ i, i < N → dx (τ x) i = expr_h.dx σ e i.
Proof.
  intros Hσ Hfresh. unfold expr_h.assign, expr_h.degree.
  match goal with |- context [for_loop ?f _ _ _] => set (body := f) end.
  set (g := λ i, match expr_h.dx σ e i with Returns d => d | _ => zero end).
  set (a0 := set_x (σ x) (expr_h.val σ e)).
  assert (wf N a0) as Ha0 by apply wf_set_x, Hσ.
  assert (∀ i, i < N → expr_h.dx σ e i = Returns (g i)) as Hg.
  { intros i Hi. unfold g. by destruct (dx_returns N σ e i Hσ Hi) as [d ->]. }
  assert (∀ m k τ, k + m = N → filled g a0 k (τ x) →
            (∀ y, y ≠ x → τ y = σ y) →
            ∃ τ', for_loop body k m τ = Returns τ' ∧
                  τ' x = mkAD (x_ a0) (g <$> seq 0 N)) as Hloop.
  { induction m as [|m IH]; intros k τ Hk Hfill Hframe.
    - exists τ. split; [done|]. destruct Hfill as [Hx Hd].
      destruct (τ x) as [x0 d0]. cbn [x_ dx_] in Hx, Hd. subst x0 d0.
      replace k with N by lia. rewrite drop_ge, app_nil_r; [done|].
      unfold wf in Ha0. lia.
    - assert (body k τ
              = Returns (<[x:=mkAD (x_ (τ x)) (<[k:=g k]> (dx_ (τ x)))]> τ)) as Hstep.
      { unfold body.
        rewrite (dx_ext τ σ e k).
        2:{ intros y Hy. apply Hframe. by intros ->. }
        rewrite Hg by lia.
        simpl. by rewrite (dx_set_filled N g a0 k) by (done || lia). }
      change (for_loop body k (S m) τ) with (body k τ ≫= for_loop body (S k) m).
      rewrite Hstep. simpl.
      apply IH; [lia | |].
      + rewrite fn_lookup_insert. apply (filled_step N); [done | lia | done].
      + intros y Hne. rewrite fn_lookup_insert_ne by done. by apply Hframe. }
  destruct (Hloop N 0 (<[x:=a0]> σ)) as [τ [E Hx]]; [lia | |  |].
  - rewrite fn_lookup_insert. split; [done|]. by rewrite drop_0.
  - intros y Hne. by rewrite fn_lookup_insert_ne.
  - exists τ. split; [done|]. intros i Hi.
    rewrite Hx, (dx_lt N), der_fill, Hg by (apply wf_fill || done). done.
Qed.

(** C6, as the code has it: binding a tree to a variable, by
    assignment or by construction, stores the value of the tree and,
    for a tree that does not refer to the variable being bound, every
    derivative [i < N] of the tree; no other variable changes. *)
Theorem assign_materialises σ x e :
  expr_h.store_wf N σ →
  ∃ τ1 τ2,
    expr_h.assign_expr N σ x e = Returns τ1 ∧
    expr_h.ValExpr_expr N σ x e = Returns τ2 ∧
    (∀ y, y ≠ x → τ1 y = σ y ∧ τ2 y = σ y) ∧
    val (τ1 x) = expr_h.val σ e ∧
    (¬ expr_h.refers x e →
       val (τ2 x) = expr_h.val σ e ∧
       ∀ i, i < N →
         dx (τ1 x) i = expr_h.dx σ e i ∧ dx (τ2 x) i = expr_h.dx σ e i).
Proof.
  intros Hσ. unfold expr_h.assign_expr, expr_h.ValExpr_expr.
  rewrite AD_default_fill. simpl.
  set (σ0 := <[x:=mkAD zero (replicate N zero)]> σ).
  assert (expr_h.store_wf N σ0) as Hσ0.
  { intros y. unfold σ0. destruct (decide (x = y)) as [<-|Hne].
    - rewrite fn_lookup_insert. apply wf_zeroed.
    - rewrite fn_lookup_insert_ne by done. apply Hσ. }
  assert (∀ y, y ≠ x → σ0 y = σ y) as Hσ0y.
  { intros y Hne. unfold σ0. by rewrite fn_lookup_insert_ne. }
  destruct (assign_value σ x e Hσ) as [τ1 [E1 [V1 Y1]]].
  destruct (assign_value σ0 x e Hσ0) as [τ2 [E2 [V2 Y2]]].
  exists τ1, τ2. split; [done|]. split; [done|]. split.
  { intros y Hne. rewrite Y1, Y2, Hσ0y by done. done. }
  split; [done|]. intros Hfresh.
  assert (∀ y, expr_h.refers y e → σ0 y = σ y) as Hagree.
  { intros y Hy. apply Hσ0y. by intros ->. }
  split; [by rewrite V2, (val_ext σ0 σ)|]. intros i Hi.
  destruct (assign_derivatives σ x e Hσ Hfresh) as [τ1' [E1' D1]].
  destruct (assign_derivatives σ0 x e Hσ0 Hfresh) as [τ2' [E2' D2]].
  rewrite E1 in E1'. rewrite E2 in E2'.
  injection E1' as <-. injection E2' as <-.
  rewrite D1, D2 by done. split; [done|]. by apply dx_ext.
Qed.
End materialise.

Section evaluation.
Context {F : Type} `{Arith F} `{std.Libm F}.
Variable N : nat.
Implicit Types (σ τ : expr_h.store F) (e : expr_h.Expr F) (x y : var) (i : nat).

Lemma dx_beyond σ e i :
  expr_h.store_wf N σ → N ≤ i →
  if expr_h.constant e
  then ∃ d, expr_h.dx σ e i = Returns d
  else expr_h.dx σ e i = Undefined.
Proof.
  intros Hσ Hi. induction e; simpl;
    repeat match goal with
           | IH : if expr_h.constant ?e then _ else _ |- _ =>
               destruct (expr_h.constant e);
               [destruct IH as [? ->] | rewrite IH]
           end; simpl; eauto.
  by rewrite (subscript_ge N) by (apply Hσ || done).
Qed.

(** X4: [dx(i)] of a tree, any node class included, returns for every
    index below [N].  At an index from [N] on it is undefined as soon
    as the tree has a [ValExpr] leaf, whose array it subscripts out of
    bounds; a tree of [ConstExpr] leaves alone still returns, at any
    index. *)
Theorem tree_dx_bounds σ e i :
  expr_h.store_wf N σ →
  (i < N → ∃ d, expr_h.dx σ e i = Returns d) ∧
  (N ≤ i → expr_h.constant e = false → expr_h.dx σ e i = Undefined) ∧
  (N ≤ i → expr_h.constant e = true → ∃ d, expr_h.dx σ e i = Returns d).
Proof.
  intros Hσ. split; [by apply dx_returns|].
  split; intros Hi Hc; pose proof (dx_beyond σ e i Hσ Hi) as Hb;
    by rewrite Hc in Hb.
Qed.

(** X5: [ValExpr::diff(idx)] with an index from [N] on is undefined:
    after the zeroing loop, [dx(idx) = 1.0] subscripts the array out of
    bounds.  No error is reported. *)
Theorem ValExpr_diff_beyond (a : AD F) (idx : nat) :
  wf N a → N ≤ idx →
  expr_h.diff N a idx = Undefined ∧ ¬ reports_error (expr_h.diff N a idx).
Proof.
  intros Ha Hi.
  assert (expr_h.diff N a idx = Undefined) as E.
  { unfold expr_h.diff, expr_h.degree.
    rewrite (for_loop_fill N (λ _, zero)), fill_const; [| done |].
    - simpl. unfold dx_set.
      by rewrite (subscript_set_ge N) by (apply wf_zeroed || done).
    - intros k s Hk Hs. by apply (dx_set_filled N (λ _, zero) a). }
  split; [done|]. rewrite E. intros [w Hw]. discriminate.
Qed.

(** The derivatives of a tree, as a function of the index. *)
Lemma dx_function σ e :
  expr_h.store_wf N σ →
  ∃ g : nat → F, ∀ i, i < N → expr_h.dx σ e i = Returns (g i).
Proof.
  intros Hσ.
  exists (λ i, match expr_h.dx σ e i with Returns d => d | _ => zero end).
  intros i Hi. by destruct (dx_returns N σ e i Hσ Hi) as [d ->].
Qed.

(** What [assign] stores, as an object, when the writes it has made
    to the target do not change what [dx(k)] of the tree reads. *)
Lemma assign_fill_when σ x e (g : nat → F) :
  expr_h.store_wf N σ →
  (∀ k τ, k < N →
     filled g (set_x (σ x) (expr_h.val σ e)) k (τ x) →
     (∀ y, y ≠ x → τ y = σ y) →
     expr_h.dx τ e k = Returns (g k)) →
  ∃ τ, expr_h.assign N σ x e = Returns τ ∧
       τ x = mkAD (expr_h.val σ e) (g <$> seq 0 N) ∧
       ∀ y, y ≠ x → τ y = σ y.
Proof.
  intros Hσ Hread. unfold expr_h.assign, expr_h.degree.
  match goal with |- context [for_loop ?f _ _ _] => set (body := f) end.
  set (a0 := set_x (σ x) (expr_h.val σ e)) in *.
  assert (wf N a0) as Ha0 by apply wf_set_x, Hσ.
  assert (∀ m k τ, k + m = N → filled g a0 k (τ x) →
            (∀ y, y ≠ x → τ y = σ y) →
            ∃ τ', for_loop body k m τ = Returns τ' ∧
                  τ' x = mkAD (x_ a0) (g <$> seq 0 N) ∧
                  ∀ y, y ≠ x → τ' y = σ y) as Hloop.
  { induction m as [|m IH]; intros k τ Hk Hfill Hframe.
    - exists τ. split; [done|]. split; [|done]. destruct Hfill as [Hx Hd].
      destruct (τ x) as [x0 d0]. cbn [x_ dx_] in Hx, Hd. subst x0 d0.
      replace k with N by lia. rewrite drop_ge, app_nil_r; [done|].
      unfold wf in Ha0. lia.
    - assert (body k τ
              = Returns (<[x:=mkAD (x_ (τ x)) (<[k:=g k]> (dx_ (τ x)))]> τ)) as Hstep.
      { unfold body. rewrite (Hread k τ) by (done || lia).
        simpl. by rewrite (dx_set_filled N g a0 k) by (done || lia). }
      change (for_loop body k (S m) τ) with (body k τ ≫= for_loop body (S k) m).
      rewrite Hstep. simpl.
      apply IH; [lia | |].
      + rewrite fn_lookup_insert. apply (filled_step N); [done | lia | done].
      + intros y Hne. rewrite fn_lookup_insert_ne by done. by apply Hframe. }
  apply (Hloop N 0 (<[x:=a0]> σ)); [lia | |].
  - rewrite fn_lookup_insert. split; [done|]. by rewrite drop_0.
  - intros y Hne. by rewrite fn_lookup_insert_ne.
Qed.

(** A tree that does not refer to the target. *)
Lemma assign_fill σ x e (g : nat → F) :
  expr_h.store_wf N σ → ¬ expr_h.refers x e →
  (∀ i, i < N → expr_h.dx σ e i = Returns (g i)) →
  ∃ τ, expr_h.assign N σ x e = Returns τ ∧
       τ x = mkAD (expr_h.val σ e) (g <$> seq 0 N) ∧
       ∀ y, y ≠ x → τ y = σ y.
Proof.
  intros Hσ Hfresh Hg. apply assign_fill_when; [done|].
  intros k τ Hk _ Hframe. rewrite (dx_ext τ σ e k); [by apply Hg|].
  intros y Hy. apply Hframe. by intros ->.
Qed.

(** [dx(k)] of a tree of sums and differences reads slot [k] of its
    leaves and nothing else. *)
Lemma dx_linear σ τ e k :
  expr_h.linear e = true →
  (∀ y, dx_ (τ y) !! k = dx_ (σ y) !! k) →
  expr_h.dx τ e k = expr_h.dx σ e k.
Proof.
  intros Hlin Hslot. induction e; simpl in *; try discriminate; try done.
  - unfold dx, subscript. by rewrite Hslot.
  - apply andb_true_iff in Hlin as [H1 H2]. by rewrite IHe1, IHe2.
  - apply andb_true_iff in Hlin as [H1 H2]. by rewrite IHe1, IHe2.
Qed.

(** X14: a tree of sums and differences may refer to the variable it
    is assigned to ([x = x + y;]): [assign] still stores the value and
    every derivative [i < N] that the tree had before the assignment,
    and changes no other variable. *)
Theorem assign_linear_tree σ x e :
  expr_h.store_wf N σ → expr_h.linear e = true →
  ∃ τ, expr_h.assign_expr N σ x e = Returns τ ∧
       val (τ x) = expr_h.val σ e ∧
       (∀ i, i < N → dx (τ x) i = expr_h.dx σ e i) ∧
       ∀ y, y ≠ x → τ y = σ y.
Proof.
  intros Hσ Hlin. unfold expr_h.assign_expr.
  destruct (dx_function σ e Hσ) as [g Hg].
  destruct (assign_fill_when σ x e g Hσ) as [τ [E [Hx Hy]]].
  { intros k τ Hk Hfill Hframe. rewrite (dx_linear σ τ e k); [by apply Hg | done |].
    intros y. destruct (decide (y = x)) as [->|Hne].
    - by rewrite (filled_rest _ _ _ _ k Hfill).
    - by rewrite Hframe. }
  exists τ. split; [done|]. rewrite Hx. split; [done|]. split; [|done].
  intros i Hi. rewrite (dx_lt N), der_fill, Hg by (apply wf_fill || done). done.
Qed.

(** The operators of diff.h on an arithmetic expression return the
    record of the value and derivatives of its node tree. *)
Lemma eager_fill σ (e : expr_h.arith F) (g : nat → F) :
  expr_h.store_wf N σ →
  (∀ i, i < N → expr_h.dx σ (expr_h.lazy e) i = Returns (g i)) →
  expr_h.eager N σ e
  = Returns (mkAD (expr_h.val σ (expr_h.lazy e)) (g <$> seq 0 N)).
Proof.
  intros Hσ. revert g.
  induction e as [x | c | e1 IH1 e2 IH2 | e1 IH1 e2 IH2
                        | e1 IH1 e2 IH2 | e1 IH1 e2 IH2];
    intros g Hg; simpl in *.
  - rewrite <- (fill_self N (σ x)) at 1 by apply Hσ. f_equal. f_equal.
    apply fill_ext. intros i Hi.
    specialize (Hg i Hi). rewrite (dx_lt N) in Hg by (apply Hσ || done).
    by injection Hg.
  - rewrite AD_double_fill, <- (fill_const N). f_equal. f_equal.
    apply fill_ext. intros i Hi. specialize (Hg i Hi). by injection Hg.
  - destruct (dx_function σ (expr_h.lazy e1) Hσ) as [g1 Hg1].
    destruct (dx_function σ (expr_h.lazy e2) Hσ) as [g2 Hg2].
    rewrite (IH1 g1), (IH2 g2) by done. simpl.
    rewrite add_AD_AD_fill by apply wf_fill. simpl. f_equal. f_equal.
    apply fill_ext. intros i Hi. rewrite !der_fill by done.
    specialize (Hg i Hi). rewrite Hg1, Hg2 in Hg by done. by injection Hg.
  - destruct (dx_function σ (expr_h.lazy e1) Hσ) as [g1 Hg1].
    destruct (dx_function σ (expr_h.lazy e2) Hσ) as [g2 Hg2].
    rewrite (IH1 g1), (IH2 g2) by done. simpl.
    rewrite sub_AD_AD_fill by apply wf_fill. simpl. f_equal. f_equal.
    apply fill_ext. intros i Hi. rewrite !der_fill by done.
    specialize (Hg i Hi). rewrite Hg1, Hg2 in Hg by done. by injection Hg.
  - destruct (dx_function σ (expr_h.lazy e1) Hσ) as [g1 Hg1].
    destruct (dx_function σ (expr_h.lazy e2) Hσ) as [g2 Hg2].
    rewrite (IH1 g1), (IH2 g2) by done. simpl.
    rewrite mul_AD_AD_fill by apply wf_fill. simpl. f_equal. f_equal.
    apply fill_ext. intros i Hi. rewrite !der_fill by done.
    specialize (Hg i Hi). rewrite Hg1, Hg2 in Hg by done. by injection Hg.
  - destruct (dx_function σ (expr_h.lazy e1) Hσ) as [g1 Hg1].
    destruct (dx_function σ (expr_h.lazy e2) Hσ) as [g2 Hg2].
    rewrite (IH1 g1), (IH2 g2) by done. simpl.
    rewrite div_AD_AD_fill by apply wf_fill. simpl. f_equal. f_equal.
    apply fill_ext. intros i Hi. rewrite !der_fill by done.
    specialize (Hg i Hi). rewrite Hg1, Hg2 in Hg by done. by injection Hg.
Qed.

(** X6: binding an arithmetic expression, written with nodes, to a
    variable it does not refer to ([Val f = ...;] or [f = ...;])
    leaves in the variable the very object that the operators of
    diff.h return for the same expression. *)
Theorem materialised_is_eager σ x (e : expr_h.arith F) :
  expr_h.store_wf N σ → ¬ expr_h.refers x (expr_h.lazy e) →
  ∃ τ1 τ2 r,
    expr_h.assign_expr N σ x (expr_h.lazy e) = Returns τ1 ∧
    expr_h.ValExpr_expr N σ x (expr_h.lazy e) = Returns τ2 ∧
    expr_h.eager N σ e = Returns r ∧
    τ1 x = r ∧ τ2 x = r.
Proof.
  intros Hσ Hfresh. unfold expr_h.assign_expr, expr_h.ValExpr_expr.
  rewrite AD_default_fill. simpl.
  set (σ0 := <[x:=mkAD zero (replicate N zero)]> σ).
  assert (expr_h.store_wf N σ0) as Hσ0.
  { intros y. unfold σ0. destruct (decide (x = y)) as [<-|Hne].
    - rewrite fn_lookup_insert. apply wf_zeroed.
    - rewrite fn_lookup_insert_ne by done. apply Hσ. }
  assert (∀ y, expr_h.refers y (expr_h.lazy e) → σ0 y = σ y) as Hagree.
  { intros y Hy. unfold σ0. rewrite fn_lookup_insert_ne; [done|]. by intros ->. }
  destruct (dx_function σ (expr_h.lazy e) Hσ) as [g Hg].
  destruct (assign_fill σ x _ g Hσ Hfresh Hg) as [τ1 [E1 [X1 _]]].
  destruct (assign_fill σ0 x (expr_h.lazy e) g Hσ0 Hfresh) as [τ2 [E2 [X2 _]]].
  { intros i Hi. rewrite (dx_ext σ0 σ) by done. by apply Hg. }
  exists τ1, τ2, (mkAD (expr_h.val σ (expr_h.lazy e)) (g <$> seq 0 N)).
  split; [done|]. split; [done|]. split; [by apply eager_fill|].
  split; [done|]. by rewrite X2, (val_ext σ0 σ).
Qed.

(** X7: binding the same tree again changes nothing: for a tree that
    does not refer to the target, a second assignment leaves every
    variable as the first assignment left it. *)
Theorem assign_twice σ x e :
  expr_h.store_wf N σ → ¬ expr_h.refers x e →
  ∃ τ τ', expr_h.assign N σ x e = Returns τ ∧
          expr_h.assign N τ x e = Returns τ' ∧
          ∀ y, τ' y = τ y.
Proof.
  intros Hσ Hfresh.
  destruct (dx_function σ e Hσ) as [g Hg].
  destruct (assign_fill σ x e g Hσ Hfresh Hg) as [τ [E [Hx Hy]]].
  assert (∀ y, expr_h.refers y e → τ y = σ y) as Hagree.
  { intros y Hr. apply Hy. by intros ->. }
  assert (expr_h.store_wf N τ) as Hτ.
  { intros y. destruct (decide (y = x)) as [->|Hne].
    - rewrite Hx. apply wf_fill.
    - rewrite Hy by done. apply Hσ. }
  destruct (assign_fill τ x e g Hτ Hfresh) as [τ' [E' [Hx' Hy']]].
  { intros i Hi. rewrite (dx_ext τ σ) by done. by apply Hg. }
  exists τ, τ'. split; [done|]. split; [done|].
  intros y. destruct (decide (y = x)) as [->|Hne].
  - by rewrite Hx', Hx, (val_ext τ σ).
  - by apply Hy'.
Qed.
End evaluation.

(** ** Exact arithmetic *)

(** The scalars form a field: the arithmetic in which the rules of
    differentiation are stated. *)
Section exact_arithmetic.
Context {F : Type} `{Arith F} `{std.Libm F}.
Variable inv : F → F.
Hypothesis Fth : field_theory zero one add mul sub opp div inv eq.
Add Field scalar_field : Fth.
Variable N : nat.
Implicit Types (a : AD F) (s : F) (i : nat).

Lemma promote_fill (g1 g2 : nat → F) (x1 x2 : F) :
  x1 = x2 → (∀ i, i < N → g1 i = g2 i) →
  both_return (Returns (mkAD x1 (g1 <$> seq 0 N)))
              (Returns (mkAD x2 (g2 <$> seq 0 N))).
Proof.
  intros -> Hg. eexists. split; [done|]. by rewrite (fill_ext N g1 g2).
Qed.

(** In exact arithmetic, with a scalar on either side, each of
    [+ - * /] returns what the operator on two dual numbers returns
    once the scalar is promoted by [AD(double)], value and derivative
    array alike; for [a / s] the scalar is not zero. *)
Lemma mixed_operands_promote s a :
  wf N a →
  both_return (add_double_AD N s a) (c ← AD_double N s; add_AD_AD N c a) ∧
  both_return (add_AD_double N a s) (c ← AD_double N s; add_AD_AD N a c) ∧
  both_return (sub_double_AD N s a) (c ← AD_double N s; sub_AD_AD N c a) ∧
  both_return (sub_AD_double N a s) (c ← AD_double N s; sub_AD_AD N a c) ∧
  both_return (mul_double_AD N s a) (c ← AD_double N s; mul_AD_AD N c a) ∧
  both_return (mul_AD_double N a s) (c ← AD_double N s; mul_AD_AD N a c) ∧
  both_return (div_double_AD N s a) (c ← AD_double N s; div_AD_AD N c a) ∧
  (s ≠ zero →
   both_return (div_AD_double N a s) (c ← AD_double N s; div_AD_AD N a c)).
Proof.
  intros Ha. rewrite AD_double_fill. simpl.
  rewrite add_double_AD_fill, add_AD_double_fill, sub_double_AD_fill,
    sub_AD_double_fill, mul_double_AD_fill, mul_AD_double_fill,
    div_double_AD_fill, div_AD_double_fill,
    !add_AD_AD_fill, !sub_AD_AD_fill, !mul_AD_AD_fill, !div_AD_AD_fill
    by (apply wf_zeroed || done).
  simpl.
  repeat split; try intros Hs; apply promote_fill; try done;
    intros i Hi; rewrite der_zeroed; try ring.
  - f_equal. ring.
  - field. done.
Qed.

Implicit Types (σ : expr_h.store F) (u v : expr_h.Expr F).

Implicit Types (b : AD F).

Lemma fill_is a (x : F) (g : nat → F) :
  wf N a → x = x_ a → (∀ i, i < N → g i = der a i) →
  mkAD x (g <$> seq 0 N) = a.
Proof.
  intros Ha -> Hg. rewrite (fill_ext N g (der a)) by done. by apply fill_self.
Qed.

(** X9: in exact arithmetic the operators on two dual numbers undo
    one another, derivatives included: [(a + b) - b], [(a - b) + b],
    and for a [b] of non-zero value [(a * b) / b] and [(a / b) * b],
    all return [a]. *)
Theorem inverse_operators_cancel a b :
  wf N a → wf N b →
  (t ← add_AD_AD N a b; sub_AD_AD N t b) = Returns a ∧
  (t ← sub_AD_AD N a b; add_AD_AD N t b) = Returns a ∧
  (x_ b ≠ zero → (t ← mul_AD_AD N a b; div_AD_AD N t b) = Returns a) ∧
  (x_ b ≠ zero → (t ← div_AD_AD N a b; mul_AD_AD N t b) = Returns a).
Proof.
  intros Ha Hb.
  rewrite add_AD_AD_fill, sub_AD_AD_fill, mul_AD_AD_fill, div_AD_AD_fill
    by done.
  simpl.
  rewrite add_AD_AD_fill, sub_AD_AD_fill, mul_AD_AD_fill, div_AD_AD_fill
    by (apply wf_fill || done).
  simpl.
  repeat split; try intros Hnz; f_equal; apply fill_is; try done;
    try (intros i Hi; rewrite der_fill by done);
    try ring; field; done.
Qed.

(** X10: in exact arithmetic [+] and [*] on two dual numbers are
    commutative, derivatives included. *)
Theorem add_mul_commute a b :
  wf N a → wf N b →
  add_AD_AD N a b = add_AD_AD N b a ∧ mul_AD_AD N a b = mul_AD_AD N b a.
Proof.
  intros Ha Hb. rewrite !add_AD_AD_fill, !mul_AD_AD_fill by done.
  split; f_equal; f_equal; try ring; apply fill_ext; intros i Hi; ring.
Qed.

(** X13: in exact arithmetic the four operators on two promoted
    scalars return the promoted scalar of the result, a constant with
    its derivatives zero; for the quotient the divisor is not zero. *)
Theorem constants_fold (s t : F) :
  (a ← AD_double N s; b ← AD_double N t; add_AD_AD N a b)
  = AD_double N (s + t)%dbl ∧
  (a ← AD_double N s; b ← AD_double N t; sub_AD_AD N a b)
  = AD_double N (s - t)%dbl ∧
  (a ← AD_double N s; b ← AD_double N t; mul_AD_AD N a b)
  = AD_double N (s * t)%dbl ∧
  (t ≠ zero →
   (a ← AD_double N s; b ← AD_double N t; div_AD_AD N a b)
   = AD_double N (s / t)%dbl).
Proof.
  rewrite !AD_double_fill. simpl.
  rewrite add_AD_AD_fill, sub_AD_AD_fill, mul_AD_AD_fill, div_AD_AD_fill
    by apply wf_zeroed.
  simpl. rewrite <- !(fill_const N).
  repeat split; try intros Ht; f_equal; f_equal; apply fill_ext; intros i Hi;
    rewrite !der_fill by done; try ring.
  field. done.
Qed.
End exact_arithmetic.

(** ** Mixed operands in the arithmetic of the code *)

Section mixed_operands.
Context {F : Type} `{Arith F}.
Variable N : nat.
Implicit Types (a : AD F) (s : F).

End mixed_operands.

(** ** The arithmetic of the code: binary64 *)

Section binary64_arithmetic.
Local Open Scope float_scope.
Implicit Types x y z : float.

Lemma SF_nan x : is_nan x = true → Prim2SF x = S754_nan.
Proof.
  unfold is_nan. rewrite FloatAxioms.eqb_spec.
  destruct (Prim2SF x) as [s| s| |s m e]; try done.
  - by destruct s.
  - unfold SFeqb, SFcompare.
    destruct s; rewrite Z.compare_refl, Pos.compare_cont_refl; done.
Qed.

Lemma SF_zero x : is_zero x = true → ∃ s, Prim2SF x = S754_zero s.
Proof.
  unfold is_zero. rewrite FloatAxioms.eqb_spec.
  change (Prim2SF PrimFloat.zero) with (S754_zero false).
  destruct (Prim2SF x) as [s| s| |s m e]; try done; eauto.
  - by destruct s.
  - by destruct s.
Qed.

Lemma SF_infinity x : is_infinity x = true → ∃ s, Prim2SF x = S754_infinity s.
Proof.
  unfold is_infinity. rewrite FloatAxioms.eqb_spec, abs_spec.
  change (Prim2SF infinity) with (S754_infinity false).
  destruct (Prim2SF x) as [s| s| |s m e]; try done; eauto.
Qed.

Lemma SF_finite x :
  is_finite x = true →
  (∃ s, Prim2SF x = S754_zero s) ∨ ∃ s m e, Prim2SF x = S754_finite s m e.
Proof.
  unfold is_finite, is_nan, is_infinity.
  rewrite !FloatAxioms.eqb_spec, abs_spec.
  change (Prim2SF infinity) with (S754_infinity false).
  destruct (Prim2SF x) as [s| [] | |s m e]; try done; [left | right]; eauto.
Qed.

Lemma is_zero_SF x s : Prim2SF x = S754_zero s → is_zero x = true.
Proof.
  intros E. unfold is_zero. rewrite FloatAxioms.eqb_spec, E.
  change (Prim2SF PrimFloat.zero) with (S754_zero false). done.
Qed.

Lemma eq_nan x : Prim2SF x = S754_nan → x = nan.
Proof. intros E. apply Prim2SF_inj. by rewrite E. Qed.

(** NaN is absorbing. *)
Lemma nan_mul y : nan * y = nan.
Proof.
  apply eq_nan. rewrite mul_spec. change (Prim2SF nan) with S754_nan. done.
Qed.

Lemma mul_nan x : x * nan = nan.
Proof.
  apply eq_nan. rewrite mul_spec. change (Prim2SF nan) with S754_nan.
  by destruct (Prim2SF x).
Qed.

Lemma nan_add y : nan + y = nan.
Proof.
  apply eq_nan. rewrite add_spec. change (Prim2SF nan) with S754_nan. done.
Qed.

(** Zero times infinity is NaN; zero times a finite number is a zero. *)
Lemma zero_mul_infinity z x :
  is_zero z = true → is_infinity x = true → z * x = nan.
Proof.
  intros [s Ez]%SF_zero [s' Ex]%SF_infinity.
  apply eq_nan. by rewrite mul_spec, Ez, Ex.
Qed.

Lemma zero_mul_finite z x :
  is_zero z = true → is_finite x = true → is_zero (z * x) = true.
Proof.
  intros [s Ez]%SF_zero [[s' Ex]|(s' & m & e & Ex)]%SF_finite;
    eapply is_zero_SF; rewrite mul_spec, Ez, Ex; reflexivity.
Qed.

(** A zero added to [y] gives [y], or a zero when [y] is a zero (of
    either sign). *)
Lemma zero_add z y :
  is_zero z = true →
  z + y = y ∨ (is_zero (z + y) = true ∧ is_zero y = true).
Proof.
  intros [s Ez]%SF_zero.
  destruct (Prim2SF y) as [s'| s'| |s' m e] eqn:Ey.
  - right. split; [|by eapply is_zero_SF].
    eapply (is_zero_SF _ (if s then (if s' then true else false) else false)).
    rewrite add_spec, Ez, Ey. by destruct s, s'.
  - left. apply Prim2SF_inj. by rewrite add_spec, Ez, Ey.
  - left. apply Prim2SF_inj. by rewrite add_spec, Ez, Ey.
  - left. apply Prim2SF_inj. by rewrite add_spec, Ez, Ey.
Qed.
End binary64_arithmetic.

Section PowExpr_on_binary64.
(** Any C library. *)
Context {libm : std.Libm float}.
Implicit Types (σ : expr_h.store float) (u v : expr_h.Expr float).

End PowExpr_on_binary64.

(** ** The derivative a tree computes is the derivative *)

Section calculus.
Local Open Scope R_scope.
Implicit Types (σ : expr_h.store R) (e : expr_h.Expr R) (x y : var) (k : nat).

Lemma at_value_same σ x e :
  expr_h.val (at_value σ x (val (σ x))) e = expr_h.val σ e.
Proof.
  apply val_ext. intros y _. unfold at_value.
  destruct (decide (x = y)) as [<-|Hne].
  - rewrite fn_lookup_insert. by destruct (σ x).
  - by rewrite fn_lookup_insert_ne.
Qed.

Lemma Rpower_pred u v : 0 < u → Rpower u (v - 1) = Rpower u v / u.
Proof.
  intros Hu. unfold Rminus, Rdiv.
  by rewrite Rpower_plus, Rpower_Ropp, Rpower_1.
Qed.

(** Both operands of a binary node have a derivative when the node
    has one. *)
Lemma bind2_returns (o1 o2 : outcome R) (f : R → R → R) d :
  (d1 ← o1; d2 ← o2; Returns (f d1 d2)) = Returns d →
  ∃ d1 d2, o1 = Returns d1 ∧ o2 = Returns d2 ∧ d = f d1 d2.
Proof.
  destruct o1 as [d1| |], o2 as [d2| |]; simpl; try discriminate.
  intros [= <-]. eauto.
Qed.

Lemma bind1_returns (o1 : outcome R) (f : R → R) d :
  (d1 ← o1; Returns (f d1)) = Returns d →
  ∃ d1, o1 = Returns d1 ∧ d = f d1.
Proof.
  destruct o1 as [d1| |]; simpl; try discriminate.
  intros [= <-]. eauto.
Qed.

(** X11: over the reals, with the variable [x] seeded at index [k] and
    every other variable of derivative zero at [k], the [dx(k)] of a
    tree evaluated inside the domains of its functions is the
    derivative of the value of the tree as a function of the value of
    [x]. *)
Theorem tree_dx_is_the_derivative σ x k e d :
  dx (σ x) k = Returns 1 →
  (∀ y, y ≠ x → dx (σ y) k = Returns 0) →
  in_domain σ e →
  expr_h.dx σ e k = Returns d →
  derivable_pt_lim (λ t, expr_h.val (at_value σ x t) e) (val (σ x)) d.
Proof.
  intros Hx Hy. revert d.
  induction e as [c | y | l IHl r IHr | l IHl r IHr | l IHl r IHr
                    | l IHl r IHr | v IHv | v IHv | l IHl r IHr];
    intros d Hdom Hd; cbn [expr_h.val expr_h.dx in_domain] in *.
  - injection Hd as <-. apply (derivable_pt_lim_const c).
  - destruct (decide (y = x)) as [->|Hne].
    + rewrite Hx in Hd. injection Hd as <-.
      apply (derivable_pt_lim_ext id); [|apply derivable_pt_lim_id].
      intros t. unfold at_value. by rewrite fn_lookup_insert.
    + rewrite (Hy y Hne) in Hd. injection Hd as <-.
      apply (derivable_pt_lim_ext (fct_cte (val (σ y))));
        [|apply derivable_pt_lim_const].
      intros t. unfold at_value. by rewrite fn_lookup_insert_ne.
  - destruct Hdom as [Hl Hr].
    apply bind2_returns in Hd as (dl & dr & El & Er & ->).
    apply (derivable_pt_lim_plus _ _ _ _ _ (IHl dl Hl El) (IHr dr Hr Er)).
  - destruct Hdom as [Hl Hr].
    apply bind2_returns in Hd as (dl & dr & El & Er & ->).
    apply (derivable_pt_lim_minus _ _ _ _ _ (IHl dl Hl El) (IHr dr Hr Er)).
  - destruct Hdom as [Hl Hr].
    apply (bind2_returns _ _ (λ dl dr, dl * expr_h.val σ r + expr_h.val σ l * dr))
      in Hd as (dl & dr & El & Er & ->).
    pose proof (derivable_pt_lim_mult _ _ _ _ _ (IHl dl Hl El) (IHr dr Hr Er)) as D.
    cbv beta in D. by rewrite !at_value_same in D.
  - destruct Hdom as (Hl & Hr & Hnz).
    apply (bind2_returns _ _
             (λ dl dr, (dl * expr_h.val σ r - expr_h.val σ l * dr)
                       / (expr_h.val σ r * expr_h.val σ r)))
      in Hd as (dl & dr & El & Er & ->).
    pose proof (derivable_pt_lim_div _ _ _ _ _ (IHl dl Hl El) (IHr dr Hr Er)) as D.
    cbv beta in D. rewrite !at_value_same in D. specialize (D Hnz).
    replace ((dl * expr_h.val σ r - expr_h.val σ l * dr)
             / (expr_h.val σ r * expr_h.val σ r))
      with ((dl * expr_h.val σ r - dr * expr_h.val σ l) / (expr_h.val σ r)²);
      [done|].
    unfold Rsqr. by field.
  - apply (bind1_returns _ (λ dv, dv * Rtrigo_def.exp (expr_h.val σ v)))
      in Hd as (dv & Ev & ->).
    pose proof (derivable_pt_lim_comp _ Rtrigo_def.exp _ _ _ (IHv dv Hdom Ev)
                  (derivable_pt_lim_exp _)) as D.
    cbv beta in D. rewrite !at_value_same in D.
    by rewrite Rmult_comm.
  - destruct Hdom as [Hv Hpos].
    apply (bind1_returns _ (λ dv, dv / expr_h.val σ v)) in Hd as (dv & Ev & ->).
    assert (derivable_pt_lim ln (expr_h.val (at_value σ x (val (σ x))) v)
              (/ expr_h.val σ v)) as Dln.
    { rewrite at_value_same. by apply derivable_pt_lim_ln. }
    pose proof (derivable_pt_lim_comp _ ln _ _ _ (IHv dv Hv Ev) Dln) as D.
    unfold Rdiv. by rewrite Rmult_comm.
  - destruct Hdom as (Hl & Hr & Hpos).
    apply (bind2_returns _ _
             (λ dr dl, dr * ln (expr_h.val σ l)
                       * Rpower (expr_h.val σ l) (expr_h.val σ r)
                       + expr_h.val σ r * dl
                         * Rpower (expr_h.val σ l) (expr_h.val σ r - 1)))
      in Hd as (dr & dl & Er & El & ->).
    assert (derivable_pt_lim ln (expr_h.val (at_value σ x (val (σ x))) l)
              (/ expr_h.val σ l)) as Dln.
    { rewrite at_value_same. by apply derivable_pt_lim_ln. }
    pose proof (derivable_pt_lim_comp _ ln _ _ _ (IHl dl Hl El) Dln) as Dlog.
    pose proof (derivable_pt_lim_mult _ _ _ _ _ (IHr dr Hr Er) Dlog) as Dprod.
    pose proof (derivable_pt_lim_comp _ Rtrigo_def.exp _ _ _ Dprod
                  (derivable_pt_lim_exp _)) as D.
    unfold comp, mult_fct in D. cbv beta in D. rewrite !at_value_same in D.
    rewrite Rpower_pred by done. unfold Rpower at 1 2.
    replace (dr * ln (expr_h.val σ l)
             * Rtrigo_def.exp (expr_h.val σ r * ln (expr_h.val σ l))
             + expr_h.val σ r * dl
               * (Rtrigo_def.exp (expr_h.val σ r * ln (expr_h.val σ l))
                  / expr_h.val σ l))
      with (Rtrigo_def.exp (expr_h.val σ r * ln (expr_h.val σ l))
            * (dr * ln (expr_h.val σ l)
               + expr_h.val σ r * (/ expr_h.val σ l * dl)));
      [done|].
    field. lra.
Qed.

(** X12: over the reals, a tree of [ConstExpr] leaves evaluated
    inside the domains of its functions (no zero divisor, positive
    argument of [log], positive base of [pow]) has derivative zero at
    every index. *)
Theorem constant_tree_dx σ e k :
  expr_h.constant e = true → in_domain σ e →
  expr_h.dx σ e k = Returns 0.
Proof.
  induction e as [c | y | l IHl r IHr | l IHl r IHr | l IHl r IHr
                    | l IHl r IHr | v IHv | v IHv | l IHl r IHr];
    cbn [expr_h.constant expr_h.dx in_domain]; intros Hc Hdom;
    try discriminate; try done;
    try (apply andb_true_iff in Hc as [Hcl Hcr]).
  - destruct Hdom as [Hl Hr]. rewrite IHl, IHr by done. simpl.
    f_equal. cbn [add sub mul div exact]. ring.
  - destruct Hdom as [Hl Hr]. rewrite IHl, IHr by done. simpl.
    f_equal. cbn [add sub mul div exact]. ring.
  - destruct Hdom as [Hl Hr]. rewrite IHl, IHr by done. simpl.
    f_equal. cbn [add sub mul div exact]. ring.
  - destruct Hdom as (Hl & Hr & Hnz). rewrite IHl, IHr by done. simpl.
    f_equal. cbn [add sub mul div exact]. by field.
  - rewrite IHv by done. simpl. f_equal. cbn [add sub mul div exact]. ring.
  - destruct Hdom as [Hv Hpos]. rewrite IHv by done. simpl.
    f_equal. cbn [add sub mul div exact]. field. lra.
  - destruct Hdom as (Hl & Hr & Hpos). rewrite IHl, IHr by done. simpl.
    f_equal. cbn [add sub mul div exact]. ring.
Qed.
End calculus.

(** ** The test programs, run on binary64 *)

Section programs.
Import sample.
Local Open Scope float_scope.

(** [f1]: [a + b + c] is [6 [1 1 1]]. *)
Example program_f :
  (t ← add_AD_AD 3 a b; add_AD_AD 3 t c) = Returns (mkAD 6 [1; 1; 1]).
Proof. reflexivity. Qed.

(** [f4]: [a / c] is [1/3 [1/3 0 -1/9]]. *)
Example program_i :
  div_AD_AD 3 a c = Returns (mkAD (1 / 3) [3 / 9; 0; -1 / 9]).
Proof. reflexivity. Qed.

(** [j = 2.0 * (a + b - c) / 4.0] is [0 [0.5 0.5 -0.5]]. *)
Example program_j :
  (t ← add_AD_AD 3 a b; t ← sub_AD_AD 3 t c;
   t ← mul_double_AD 3 2 t; div_AD_double 3 t 4)
  = Returns (mkAD 0 [0.5; 0.5; -0.5]).
Proof. reflexivity. Qed.

(** The product rule, worked: [a] seeded at 0 with value 2, [b] seeded
    at 1 with value 3. *)
Example product_rule_worked :
  mul_AD_AD 3 (mkAD 2 [1; 0; 0]) (mkAD 3 [0; 1; 0])
  = Returns (mkAD 6 [3; 2; 0]).
Proof. reflexivity. Qed.

(** [Val f = x * y;] with [x = 123] seeded and [y = 42]: the value is
    5166 and the derivative with respect to [x] is 42. *)
Example program_expr :
  (τ ← expr_h.ValExpr_expr 1 xy "f" x_times_y; Returns (τ "f"))
  = Returns (mkAD 5166 [42]).
Proof. reflexivity. Qed.

(** [b * exp(c)] with nodes: about [40.171074 [0 20.085537 40.171074]],
    [exp(3)] lying between 20.0855369 and 20.0855370. *)
Example program_h_expr :
  (τ ← expr_h.ValExpr_expr 3 abc "h"
         (expr_h.MulExpr (expr_h.ValExpr "b")
            (expr_h.ExpExpr (expr_h.ValExpr "c")));
   Returns (τ "h"))
  = Returns (mkAD (2 * libm64.exp 3) [0; libm64.exp 3; 2 * libm64.exp 3]) ∧
  (0x1.415e5bf0c19eap+4 <? libm64.exp 3) = true ∧
  (libm64.exp 3 <? 0x1.415e5c0b99913p+4) = true.
Proof. repeat split; reflexivity. Qed.
End programs.

(** ** Where the code departs from a claim *)

(** C4, against the claim: with [AD<1>] and the index 1, neither
    [diff] nor [dx] reports an error; both subscript the array out of
    bounds. *)
Lemma out_of_range_index_not_reported :
  ¬ reports_error (diff 1 sample.p 1) ∧
  ¬ reports_error (dx sample.p 1) ∧
  diff 1 sample.p 1 = Undefined ∧
  dx sample.p 1 = Undefined.
Proof.
  assert (diff 1 sample.p 1 = Undefined) as E1 by reflexivity.
  assert (dx sample.p 1 = Undefined) as E2 by reflexivity.
  rewrite E1, E2. repeat split; intros [w Hw]; discriminate.
Qed.


(** C6, against the claim: [x = x * x;] with [x = 2] seeded at index 0.
    The tree has derivative [1·2 + 2·1 = 4]; [assign] has stored the
    value 4 in [x] before it evaluates the derivative through the
    references to [x], and stores [1·4 + 4·1 = 8]. *)
Lemma assign_reads_the_updated_target :
  expr_h.val sample.x2 sample.x_times_x = 4%float ∧
  expr_h.dx sample.x2 sample.x_times_x 0 = Returns 4%float ∧
  (τ ← expr_h.assign_expr 1 sample.x2 "x" sample.x_times_x; Returns (τ "x"))
  = Returns (mkAD 4%float [8%float]) ∧
  8%float ≠ 4%float.
Proof. repeat split; try reflexivity. float_neq. Qed.

(** ** The theorems applied to the objects of the test programs *)

Lemma lazy_eager_equivalence_applied :
  ∃ r, expr_h.eager 3 sample.abc sample.j = Returns r ∧
       wf 3 r ∧
       expr_h.val sample.abc (expr_h.lazy sample.j) = val r ∧
       ∀ i, i < 3 → expr_h.dx sample.abc (expr_h.lazy sample.j) i = dx r i.
Proof.
  apply (lazy_eager_equivalence 3 sample.abc sample.j).
  intros x. unfold sample.abc, insert, fn_insert.
  repeat case_decide; reflexivity.
Defined.

Lemma diff_resets_to_unit_vector_applied :
  ∃ a', diff 3 sample.b 0 = Returns a' ∧ expr_h.diff 3 sample.b 0 = Returns a' ∧
        val a' = val sample.b ∧
        dx a' 0 = Returns 1%float ∧
        ∀ j, j < 3 → j ≠ 0 → dx a' j = Returns 0%float.
Proof.
  assert (wf 3 sample.b) as Hwf by reflexivity.
  assert (0 < 3) as Hlt by lia.
  exact (diff_resets_to_unit_vector 3 sample.b 0 Hwf Hlt).
Defined.

Lemma index_is_unchecked_applied :
  (1 < 1 → (∃ a', diff 1 sample.p 1 = Returns a')
           ∧ dx sample.p 1 = Returns (der sample.p 1)) ∧
  (1 ≤ 1 → diff 1 sample.p 1 = Undefined ∧ dx sample.p 1 = Undefined) ∧
  ¬ reports_error (diff 1 sample.p 1) ∧ ¬ reports_error (dx sample.p 1).
Proof. apply (index_is_unchecked 1 sample.p 1). reflexivity. Defined.

Lemma assign_double_resets_applied :
  ∃ a', assign_double 3 sample.a 5%float = Returns (mkCall a' (Returns a')) ∧
        val a' = 5%float ∧
        (∀ i, i < 3 → dx a' i = Returns 0%float) ∧
        ∀ k, k < 3 →
          (b ← diff 3 sample.a k; assign_double 3 b 5%float)
          = Returns (mkCall a' (Returns a')).
Proof.
  assert (wf 3 sample.a) as Hwf by reflexivity.
  exact (assign_double_resets 3 sample.a 5%float Hwf).
Defined.

Lemma assign_materialises_applied :
  ∃ τ1 τ2,
    expr_h.assign_expr 1 sample.xy "f" sample.x_times_y = Returns τ1 ∧
    expr_h.ValExpr_expr 1 sample.xy "f" sample.x_times_y = Returns τ2 ∧
    (∀ y, y ≠ "f" → τ1 y = sample.xy y ∧ τ2 y = sample.xy y) ∧
    val (τ1 "f") = expr_h.val sample.xy sample.x_times_y ∧
    (¬ expr_h.refers "f" sample.x_times_y →
       val (τ2 "f") = expr_h.val sample.xy sample.x_times_y ∧
       ∀ i, i < 1 →
         dx (τ1 "f") i = expr_h.dx sample.xy sample.x_times_y i ∧
         dx (τ2 "f") i = expr_h.dx sample.xy sample.x_times_y i).
Proof.
  apply (assign_materialises 1 sample.xy "f" sample.x_times_y).
  intros x. unfold sample.xy, insert, fn_insert.
  repeat case_decide; reflexivity.
Defined.

Lemma mixed_operands_promote_applied :
  let s := 2%R in
  let a := mkAD 3%R [0%R; 0%R; 1%R] in
  both_return (add_double_AD 3 s a) (c ← AD_double 3 s; add_AD_AD 3 c a) ∧
  both_return (add_AD_double 3 a s) (c ← AD_double 3 s; add_AD_AD 3 a c) ∧
  both_return (sub_double_AD 3 s a) (c ← AD_double 3 s; sub_AD_AD 3 c a) ∧
  both_return (sub_AD_double 3 a s) (c ← AD_double 3 s; sub_AD_AD 3 a c) ∧
  both_return (mul_double_AD 3 s a) (c ← AD_double 3 s; mul_AD_AD 3 c a) ∧
  both_return (mul_AD_double 3 a s) (c ← AD_double 3 s; mul_AD_AD 3 a c) ∧
  both_return (div_double_AD 3 s a) (c ← AD_double 3 s; div_AD_AD 3 c a) ∧
  (s ≠ 0%R →
   both_return (div_AD_double 3 a s) (c ← AD_double 3 s; div_AD_AD 3 a c)).
Proof.
  assert (wf 3 (mkAD 3%R [0%R; 0%R; 1%R])) as Hwf by reflexivity.
  exact (mixed_operands_promote Rinv Rfield 3 2%R (mkAD 3%R [0%R; 0%R; 1%R]) Hwf).
Defined.

(** ** The further theorems applied to the same objects *)

Ltac sample_store :=
  intros ?; unfold sample.abc, sample.abcR, sample.xy, sample.x2, insert, fn_insert;
  repeat case_decide; reflexivity.

Lemma free_operators_keep_the_array_applied :
  returns_wf 3 (AD_double 3 2%float) ∧
  returns_wf 3 (add_AD_AD 3 sample.a sample.b) ∧
  returns_wf 3 (div_double_AD 3 2%float sample.b).
Proof.
  assert (wf 3 sample.a) as Ha by reflexivity.
  assert (wf 3 sample.b) as Hb by reflexivity.
  pose proof (free_operators_keep_the_array 3 sample.a sample.b 2%float Ha Hb)
    as (_ & H2 & _ & _ & _ & H6 & _ & _ & _ & _ & _ & _ & H13 & _).
  exact (conj H2 (conj H6 H13)).
Defined.

Lemma copy_is_faithful_applied :
  AD_copy 3 sample.b = Returns sample.b ∧
  assign_AD 3 sample.a (object sample.b)
  = Returns (mkCall sample.b (Returns sample.b)) ∧
  assign_AD 3 sample.a itself = Returns (mkCall sample.a (Returns sample.a)).
Proof.
  assert (wf 3 sample.a) as Ha by reflexivity.
  assert (wf 3 sample.b) as Hb by reflexivity.
  exact (copy_is_faithful 3 sample.a sample.b Ha Hb).
Defined.

Lemma in_place_matches_free_applied :
  in_place_of (add_assign_AD 3 sample.a (object sample.b))
              (add_AD_AD 3 sample.a sample.b) ∧
  in_place_of (add_assign_AD 3 sample.a itself) (add_AD_AD 3 sample.a sample.a).
Proof.
  assert (wf 3 sample.a) as Ha by reflexivity.
  assert (wf 3 sample.b) as Hb by reflexivity.
  pose proof (in_place_matches_free 3 sample.a sample.b 2%float Ha Hb)
    as (_ & H2 & H3 & _).
  exact (conj H2 H3).
Defined.

Lemma tree_dx_bounds_applied :
  (3 < 3 → ∃ d, expr_h.dx sample.abc (expr_h.lazy sample.j) 3 = Returns d) ∧
  (3 ≤ 3 → expr_h.constant (expr_h.lazy sample.j) = false →
   expr_h.dx sample.abc (expr_h.lazy sample.j) 3 = Undefined) ∧
  (3 ≤ 3 → expr_h.constant (expr_h.lazy sample.j) = true →
   ∃ d, expr_h.dx sample.abc (expr_h.lazy sample.j) 3 = Returns d).
Proof.
  assert (expr_h.store_wf 3 sample.abc) as Hσ by sample_store.
  exact (tree_dx_bounds 3 sample.abc (expr_h.lazy sample.j) 3 Hσ).
Defined.

Lemma ValExpr_diff_beyond_applied :
  expr_h.diff 1 sample.p 1 = Undefined ∧
  ¬ reports_error (expr_h.diff 1 sample.p 1).
Proof.
  assert (wf 1 sample.p) as Hp by reflexivity.
  assert (1 ≤ 1) as Hi by lia.
  exact (ValExpr_diff_beyond 1 sample.p 1 Hp Hi).
Defined.

Lemma materialised_is_eager_applied :
  ∃ τ1 τ2 r,
    expr_h.assign_expr 3 sample.abc "f" (expr_h.lazy sample.j) = Returns τ1 ∧
    expr_h.ValExpr_expr 3 sample.abc "f" (expr_h.lazy sample.j) = Returns τ2 ∧
    expr_h.eager 3 sample.abc sample.j = Returns r ∧
    τ1 "f" = r ∧ τ2 "f" = r.
Proof.
  assert (expr_h.store_wf 3 sample.abc) as Hσ by sample_store.
  assert (¬ expr_h.refers "f" (expr_h.lazy sample.j)) as Hf
    by (simpl; intuition discriminate).
  exact (materialised_is_eager 3 sample.abc "f" sample.j Hσ Hf).
Defined.

Lemma assign_twice_applied :
  ∃ τ τ', expr_h.assign 1 sample.xy "f" sample.x_times_y = Returns τ ∧
          expr_h.assign 1 τ "f" sample.x_times_y = Returns τ' ∧
          ∀ y, τ' y = τ y.
Proof.
  assert (expr_h.store_wf 1 sample.xy) as Hσ by sample_store.
  assert (¬ expr_h.refers "f" sample.x_times_y) as Hf
    by (simpl; intuition discriminate).
  exact (assign_twice 1 sample.xy "f" sample.x_times_y Hσ Hf).
Defined.

Lemma assign_linear_tree_applied :
  ∃ τ, expr_h.assign_expr 1 sample.x2 "x" sample.x_plus_x = Returns τ ∧
       val (τ "x") = expr_h.val sample.x2 sample.x_plus_x ∧
       (∀ i, i < 1 → dx (τ "x") i = expr_h.dx sample.x2 sample.x_plus_x i) ∧
       ∀ y, y ≠ "x" → τ y = sample.x2 y.
Proof.
  assert (expr_h.store_wf 1 sample.x2) as Hσ by sample_store.
  assert (expr_h.linear sample.x_plus_x = true) as Hl by reflexivity.
  exact (assign_linear_tree 1 sample.x2 "x" sample.x_plus_x Hσ Hl).
Defined.

Lemma inverse_operators_cancel_applied :
  (t ← add_AD_AD 1 sample.pR sample.kR; sub_AD_AD 1 t sample.kR)
  = Returns sample.pR ∧
  (t ← sub_AD_AD 1 sample.pR sample.kR; add_AD_AD 1 t sample.kR)
  = Returns sample.pR ∧
  (x_ sample.kR ≠ 0%R →
   (t ← mul_AD_AD 1 sample.pR sample.kR; div_AD_AD 1 t sample.kR)
   = Returns sample.pR) ∧
  (x_ sample.kR ≠ 0%R →
   (t ← div_AD_AD 1 sample.pR sample.kR; mul_AD_AD 1 t sample.kR)
   = Returns sample.pR).
Proof.
  assert (wf 1 sample.pR) as Hp by reflexivity.
  assert (wf 1 sample.kR) as Hk by reflexivity.
  exact (inverse_operators_cancel Rinv Rfield 1 sample.pR sample.kR Hp Hk).
Defined.

Lemma add_mul_commute_applied :
  add_AD_AD 1 sample.pR sample.kR = add_AD_AD 1 sample.kR sample.pR ∧
  mul_AD_AD 1 sample.pR sample.kR = mul_AD_AD 1 sample.kR sample.pR.
Proof.
  assert (wf 1 sample.pR) as Hp by reflexivity.
  assert (wf 1 sample.kR) as Hk by reflexivity.
  exact (add_mul_commute Rinv Rfield 1 sample.pR sample.kR Hp Hk).
Defined.

Lemma constants_fold_applied :
  (a ← AD_double 3 2%R; b ← AD_double 3 3%R; add_AD_AD 3 a b)
  = AD_double 3 (2 + 3)%R ∧
  (a ← AD_double 3 2%R; b ← AD_double 3 3%R; sub_AD_AD 3 a b)
  = AD_double 3 (2 - 3)%R ∧
  (a ← AD_double 3 2%R; b ← AD_double 3 3%R; mul_AD_AD 3 a b)
  = AD_double 3 (2 * 3)%R ∧
  (3%R ≠ 0%R →
   (a ← AD_double 3 2%R; b ← AD_double 3 3%R; div_AD_AD 3 a b)
   = AD_double 3 (2 / 3)%R).
Proof. exact (constants_fold Rinv Rfield 3 2%R 3%R). Defined.

Lemma tree_dx_is_the_derivative_applied :
  derivable_pt_lim
    (λ t, expr_h.val (at_value sample.abcR "a" t) sample.a_over_c)
    1%R ((1 * 3 - 1 * 0) / (3 * 3))%R.
Proof.
  assert (dx (sample.abcR "a") 0 = Returns 1%R) as Hx by reflexivity.
  assert (∀ y, y ≠ "a" → dx (sample.abcR y) 0 = Returns 0%R) as Hy.
  { intros y Hne. unfold sample.abcR, insert, fn_insert.
    repeat case_decide; done. }
  assert (in_domain sample.abcR sample.a_over_c) as Hdom.
  { simpl. repeat split. lra. }
  assert (expr_h.dx sample.abcR sample.a_over_c 0
          = Returns ((1 * 3 - 1 * 0) / (3 * 3))%R) as Hd by reflexivity.
  exact (tree_dx_is_the_derivative sample.abcR "a" 0 sample.a_over_c _
           Hx Hy Hdom Hd).
Defined.





Lemma mul_div_assign_AD_undefined_applied :
  whole_call (mul_assign_AD 1 sample.p (object sample.q)) = Undefined ∧
  whole_call (div_assign_AD 1 sample.p (object sample.q)) = Undefined ∧
  whole_call (mul_assign_double 1 sample.p 3%float)
  = mul_AD_double 1 sample.p 3%float ∧
  whole_call (div_assign_double 1 sample.p 3%float)
  = div_AD_double 1 sample.p 3%float.
Proof.
  assert (wf 1 sample.p) as Hp by reflexivity.
  assert (wf 1 sample.q) as Hq by reflexivity.
  exact (mul_div_assign_AD_undefined 1 sample.p (object sample.q) 3%float Hp Hq).
Defined.

Lemma constant_tree_dx_applied :
  expr_h.dx sample.abcR sample.log_of_quotient 0 = Returns 0%R.
Proof.
  assert (expr_h.constant sample.log_of_quotient = true) as Hc by reflexivity.
  assert (in_domain sample.abcR sample.log_of_quotient) as Hdom.
  { simpl. repeat split; lra. }
  exact (constant_tree_dx sample.abcR sample.log_of_quotient 0 Hc Hdom).
Defined.
